(** * Regex rewrites of the synapse test-fixture scripts

    A shallow embedding of [scripts/fix-megaprompt-tests.py] and
    [scripts/fix-synthesis-tests.py]: the patterns and templates are the
    scripts' own strings, compiled by a model of the fragment of Python's
    [re] syntax they use, matched by a backtracking matcher with Python's
    priorities (greedy quantifiers, leftmost match), and substituted by a
    left-to-right scan as [re.sub] does.

    A text is a list of 8-bit characters; code points above 255 are not
    modelled. *)

From Stdlib Require Import String Ascii List Bool Arith Lia.
Import ListNotations.

Set Implicit Arguments.


Local Open Scope list_scope.

(* ================================================================== *)
(** ** Texts *)

Definition text := list ascii.

Definition txt (s : string) : text := list_ascii_of_string s.

(** The line feed, written as a line break inside the scripts'
    triple-quoted strings. *)
Definition nl : ascii := "010"%char.

(** [lines] joins lines with a line feed between them, the way the
    triple-quoted strings of the scripts are laid out. *)
Fixpoint lines (ls : list text) : text :=
  match ls with
  | [] => []
  | [l] => l
  | l :: ls' => l ++ nl :: lines ls'
  end.

Notation "x <- a ;; b" :=
  (match a with Some x => b | None => None end)
  (at level 61, a at next level, right associativity).

(* ================================================================== *)
(** ** Character classes of [re]

    [\s] on a [str] pattern: the white space of [str.isspace] below 256,
    that is TAB..CR, FS..US, space, NEL and NBSP.  [\d]: the decimal
    digits, below 256 only 0..9.  [[^c]]: every character but [c], line
    feeds included. *)

Inductive cclass : Type :=
| Space
| Digit
| NotChar (c : ascii).

Definition is_space (a : ascii) : bool :=
  let n := nat_of_ascii a in
  ((9 <=? n) && (n <=? 13)) || ((28 <=? n) && (n <=? 32))
  || (n =? 133) || (n =? 160).

Definition is_digit (a : ascii) : bool :=
  let n := nat_of_ascii a in (48 <=? n) && (n <=? 57).

Definition in_class (k : cclass) (a : ascii) : bool :=
  match k with
  | Space => is_space a
  | Digit => is_digit a
  | NotChar c => negb (Ascii.eqb a c)
  end.

(* ================================================================== *)
(** ** Regular expressions: the fragment the two scripts use *)

Inductive regex : Type :=
| Eps
| Lit (l : text)            (* a run of literal characters *)
| Cls (k : cclass)          (* one character of a class *)
| Plus (k : cclass)         (* k+, greedy *)
| Star (k : cclass)         (* k*, greedy *)
| Opt (r : regex)           (* r?, greedy *)
| Grp (n : nat) (r : regex) (* capturing group number n *)
| Cat (r1 r2 : regex).

Fixpoint seq (rs : list regex) : regex :=
  match rs with
  | [] => Eps
  | [r] => r
  | r :: rs' => Cat r (seq rs')
  end.

Fixpoint groups (r : regex) : nat :=
  match r with
  | Opt r' => groups r'
  | Grp _ r' => S (groups r')
  | Cat r1 r2 => groups r1 + groups r2
  | _ => 0
  end.

(* ------------------------------------------------------------------ *)
(** *** [re.compile]: tokens, then groups by a stack *)

Inductive token : Type :=
| TChar (c : ascii)
| TClass (k : cclass)
| TOpen
| TClose
| TPlus
| TStar
| TQuest.

(** The characters a backslash turns into themselves. *)
Definition is_punct (c : ascii) : bool :=
  existsb (Ascii.eqb c) (txt ".(){}[]\+*?^$|'").

(** The characters with a meaning of their own when not escaped; the
    fragment has no [.], [^], [$], [|] and no counted repetition. *)
Definition is_special (c : ascii) : bool :=
  existsb (Ascii.eqb c) (txt ".^$|{}]").

Definition escape (e : ascii) : option token :=
  if Ascii.eqb e "s"%char then Some (TClass Space)
  else if Ascii.eqb e "d"%char then Some (TClass Digit)
  else if is_punct e then Some (TChar e)
  else None.

Fixpoint tokenize (s : text) : option (list token) :=
  match s with
  | [] => Some []
  | c :: s1 =>
      if Ascii.eqb c "\"%char then
        match s1 with
        | e :: s2 => t <- escape e ;; ts <- tokenize s2 ;; Some (t :: ts)
        | [] => None
        end
      else if Ascii.eqb c "["%char then
        match s1 with
        | h :: x :: s3 =>
            if negb (Ascii.eqb h "^"%char) then None
            else if Ascii.eqb x "\"%char then
              match s3 with
              | e :: cl :: s5 =>
                  if Ascii.eqb cl "]"%char && is_punct e
                  then ts <- tokenize s5 ;; Some (TClass (NotChar e) :: ts)
                  else None
              | _ => None
              end
            else
              match s3 with
              | cl :: s4 =>
                  if Ascii.eqb cl "]"%char && negb (Ascii.eqb x "]"%char)
                  then ts <- tokenize s4 ;; Some (TClass (NotChar x) :: ts)
                  else None
              | [] => None
              end
        | _ => None
        end
      else if Ascii.eqb c "("%char then
        match s1 with
        | q :: _ => if Ascii.eqb q "?"%char then None
                    else ts <- tokenize s1 ;; Some (TOpen :: ts)
        | [] => None
        end
      else if Ascii.eqb c ")"%char then ts <- tokenize s1 ;; Some (TClose :: ts)
      else if Ascii.eqb c "+"%char then ts <- tokenize s1 ;; Some (TPlus :: ts)
      else if Ascii.eqb c "*"%char then ts <- tokenize s1 ;; Some (TStar :: ts)
      else if Ascii.eqb c "?"%char then ts <- tokenize s1 ;; Some (TQuest :: ts)
      else if is_special c then None
      else ts <- tokenize s1 ;; Some (TChar c :: ts)
  end.

(** [cur] holds the items of the group being read, last first; [stack]
    the enclosing groups with their numbers; [next] the number of the
    next opening parenthesis. *)
Fixpoint parse (ts : list token) (cur : list regex)
         (stack : list (nat * list regex)) (next : nat) : option regex :=
  match ts with
  | [] => match stack with
          | [] => Some (seq (rev cur))
          | _ :: _ => None
          end
  | TChar c :: ts' =>
      match cur with
      | Lit l :: cur' => parse ts' (Lit (l ++ [c]) :: cur') stack next
      | _ => parse ts' (Lit [c] :: cur) stack next
      end
  | TClass k :: ts' => parse ts' (Cls k :: cur) stack next
  | TPlus :: ts' =>
      match cur with
      | Cls k :: cur' => parse ts' (Plus k :: cur') stack next
      | _ => None
      end
  | TStar :: ts' =>
      match cur with
      | Cls k :: cur' => parse ts' (Star k :: cur') stack next
      | _ => None
      end
  | TQuest :: ts' =>
      match cur with
      | Cls k :: cur' => parse ts' (Opt (Cls k) :: cur') stack next
      | Grp n r :: cur' => parse ts' (Opt (Grp n r) :: cur') stack next
      | _ => None
      end
  | TOpen :: ts' => parse ts' [] ((next, cur) :: stack) (S next)
  | TClose :: ts' =>
      match stack with
      | (n, outer) :: stack' =>
          parse ts' (Grp n (seq (rev cur)) :: outer) stack' next
      | [] => None
      end
  end.

(** [None] stands for [re.error] (or a pattern outside the fragment). *)
Definition re_compile (pattern : text) : option regex :=
  ts <- tokenize pattern ;; parse ts [] [] 1.

(* ------------------------------------------------------------------ *)
(** *** The backtracking matcher *)

Definition captures := list (nat * text).

Record mstate : Type := MState {
  pos : nat;          (* characters consumed since the match started *)
  rest : text;        (* what is left of the subject *)
  caps : captures     (* groups closed so far, latest first *)
}.

Fixpoint group_of (c : captures) (n : nat) : option text :=
  match c with
  | [] => None
  | (i, s) :: c' => if Nat.eqb i n then Some s else group_of c' n
  end.

(** [eat l s]: [s] without its prefix [l], when it has it. *)
Fixpoint eat (l s : text) : option text :=
  match l with
  | [] => Some s
  | a :: l' =>
      match s with
      | b :: s' => if Ascii.eqb a b then eat l' s' else None
      | [] => None
      end
  end.

(** Greedy repetition of a class: take one more character first, and
    only when everything after fails go on from here. *)
Fixpoint greedy (p : ascii -> bool) (k : nat -> text -> option mstate)
         (n : nat) (s : text) : option mstate :=
  match s with
  | a :: s' =>
      if p a then
        match greedy p k (S n) s' with
        | Some out => Some out
        | None => k n s
        end
      else k n s
  | [] => k n s
  end.

Fixpoint m (r : regex) (k : mstate -> option mstate) (st : mstate)
  : option mstate :=
  match r with
  | Eps => k st
  | Lit l =>
      match eat l (rest st) with
      | Some s' => k (MState (pos st + length l) s' (caps st))
      | None => None
      end
  | Cls c =>
      match rest st with
      | a :: s' =>
          if in_class c a then k (MState (S (pos st)) s' (caps st)) else None
      | [] => None
      end
  | Plus c =>
      match rest st with
      | a :: s' =>
          if in_class c a
          then greedy (in_class c) (fun n s => k (MState n s (caps st)))
                      (S (pos st)) s'
          else None
      | [] => None
      end
  | Star c =>
      greedy (in_class c) (fun n s => k (MState n s (caps st)))
             (pos st) (rest st)
  | Opt r' =>
      match m r' k st with
      | Some out => Some out
      | None => k st
      end
  | Grp n r' =>
      m r' (fun st' =>
              k (MState (pos st') (rest st')
                        ((n, firstn (pos st' - pos st) (rest st)) :: caps st')))
        st
  | Cat r1 r2 => m r1 (m r2 k) st
  end.

(** A match that starts at the head of [s]: its length and its groups. *)
Definition match_at (r : regex) (s : text) : option (nat * captures) :=
  match m r Some (MState 0 s []) with
  | Some st => Some (pos st, caps st)
  | None => None
  end.

(* ------------------------------------------------------------------ *)
(** *** [re.sub] *)

(** What replaces a match: a template with [\N] references, or a
    function of the match. [None] stands for an exception. *)
Inductive repl : Type :=
| Template (t : text)
| Callable (f : captures -> option text).

Inductive titem : Type :=
| TLit (c : ascii)
| TRef (n : nat).

Definition digit_val (c : ascii) : nat := nat_of_ascii c - 48.

(** The template fragment: literal characters and [\N], [\NN] (a
    reference to a group the pattern does not have is [re.error]). *)
Fixpoint compile_template (t : text) (ngroups : nat) : option (list titem) :=
  match t with
  | [] => Some []
  | c :: t1 =>
      if Ascii.eqb c "\"%char then
        match t1 with
        | d :: t2 =>
            if is_digit d && negb (Ascii.eqb d "0"%char) then
              match t2 with
              | d2 :: t3 =>
                  if is_digit d2 then
                    let n := 10 * digit_val d + digit_val d2 in
                    match t3 with
                    | d3 :: _ => if is_digit d3 then None else
                        if n <=? ngroups
                        then its <- compile_template t3 ngroups ;;
                             Some (TRef n :: its)
                        else None
                    | [] => if n <=? ngroups then Some [TRef n] else None
                    end
                  else if digit_val d <=? ngroups
                       then its <- compile_template t2 ngroups ;;
                            Some (TRef (digit_val d) :: its)
                       else None
              | [] => if digit_val d <=? ngroups
                      then Some [TRef (digit_val d)] else None
              end
            else None
        | [] => None
        end
      else its <- compile_template t1 ngroups ;; Some (TLit c :: its)
  end.

(** A group that took no part in the match expands to nothing. *)
Fixpoint expand (its : list titem) (c : captures) : text :=
  match its with
  | [] => []
  | TLit a :: its' => a :: expand its' c
  | TRef n :: its' =>
      match group_of c n with
      | Some s => s ++ expand its' c
      | None => expand its' c
      end
  end.

(** The scan of [re.sub]: at each position try the pattern; on a match
    emit the replacement and go on after the match; otherwise copy one
    character. [skip] counts the characters of the current match still
    to pass over. *)
Fixpoint sub_scan (r : regex) (f : captures -> option text)
         (skip : nat) (s : text) {struct s} : option text :=
  match skip with
  | S k =>
      match s with
      | _ :: s' => sub_scan r f k s'
      | [] => Some []
      end
  | 0 =>
      match match_at r s with
      | Some (n, c) =>
          out <- f c ;;
          match n, s with
          | S k, _ :: s' => tl <- sub_scan r f k s' ;; Some (out ++ tl)
          | 0, a :: s' => tl <- sub_scan r f 0 s' ;; Some (out ++ a :: tl)
          | _, [] => Some out
          end
      | None =>
          match s with
          | a :: s' => tl <- sub_scan r f 0 s' ;; Some (a :: tl)
          | [] => Some []
          end
      end
  end.

(** [re.MULTILINE] changes [^] and [$] only, which the fragment lacks. *)
Inductive flag : Type := MULTILINE.

Definition re_sub (pattern : text) (rp : repl) (content : text)
           (flags : list flag) : option text :=
  r <- re_compile pattern ;;
  match rp with
  | Template t =>
      its <- compile_template t (groups r) ;;
      sub_scan r (fun c => Some (expand its c)) 0 content
  | Callable f => sub_scan r f 0 content
  end.

(* ================================================================== *)
(** ** scripts/fix-megaprompt-tests.py *)

Module Megaprompt.

Definition filepath : string :=
  "src/services/v2/synthesis/__tests__/MegaPromptGenerator.test.ts".

(** Pattern to match flat extractionResults objects with various data
    structures. *)
Definition pattern : text := lines [
  txt "(\s+)(\{";
  txt "\s+extractorId: '([^']+)',";
  txt "\s+confidence: (0\.\d+),";
  txt "\s+dataPoints: (\d+),";
  txt "\s+data: (\{[^}]+\}),";
  txt "\s+timestamp: Date\.now\(\),";
  txt "\s+duration: (\d+),";
  txt "\s+\}) as ExtractionResult" ].

(** The body both replacement functions share but for the [data] line. *)
Definition nested (indent data confidence dataPoints extractorId duration : text)
  : text :=
  lines [
    indent ++ txt "{";
    indent ++ txt "  success: true,";
    indent ++ txt "  data: " ++ data ++ txt ",";
    indent ++ txt "  confidence: {";
    indent ++ txt "    overall: " ++ confidence ++ txt ",";
    indent ++ txt "    dataQuality: " ++ confidence ++ txt ",";
    indent ++ txt "    sourceCount: " ++ dataPoints ++ txt ",";
    indent ++ txt "  },";
    indent ++ txt "  metadata: {";
    indent ++ txt "    extractorId: '" ++ extractorId ++ txt "',";
    indent ++ txt "    taskType: 'customer_profile' as any,";
    indent ++ txt "    model: 'HAIKU' as any,";
    indent ++ txt "    fromCache: false,";
    indent ++ txt "    timing: { total: " ++ duration ++ txt " },";
    indent ++ txt "    timestamp: Date.now(),";
    indent ++ txt "  },";
    indent ++ txt "} as any" ].

Definition replacement (mt : captures) : option text :=
  indent <- group_of mt 1 ;;
  extractorId <- group_of mt 3 ;;
  confidence <- group_of mt 4 ;;
  dataPoints <- group_of mt 5 ;;
  data <- group_of mt 6 ;;
  duration <- group_of mt 7 ;;
  Some (nested indent data confidence dataPoints extractorId duration).

(** Also handle the one with metadata.insights. *)
Definition pattern2 : text := lines [
  txt "(\s+)(\{";
  txt "\s+extractorId: '([^']+)',";
  txt "\s+confidence: (0\.\d+),";
  txt "\s+dataPoints: (\d+),";
  txt "\s+data: \{\},";
  txt "\s+metadata: \{ insights: \[[^\]]+\] \},";
  txt "\s+timestamp: Date\.now\(\),";
  txt "\s+duration: (\d+),";
  txt "\s+\}) as ExtractionResult" ].

Definition replacement2 (mt : captures) : option text :=
  indent <- group_of mt 1 ;;
  extractorId <- group_of mt 3 ;;
  confidence <- group_of mt 4 ;;
  dataPoints <- group_of mt 5 ;;
  duration <- group_of mt 6 ;;
  Some (nested indent (txt "{}") confidence dataPoints extractorId duration).

(** The two substitutions, the second on the result of the first. *)
Definition rewrite (content : text) : option text :=
  content1 <- re_sub pattern (Callable replacement) content [MULTILINE] ;;
  re_sub pattern2 (Callable replacement2) content1 [MULTILINE].

End Megaprompt.

(* ================================================================== *)
(** ** scripts/fix-synthesis-tests.py *)

Module Synthesis.

Definition filepath : string :=
  "src/services/v2/synthesis/__tests__/OpusSynthesisService.test.ts".

(** Pattern to match flat extractionResults objects. *)
Definition pattern : text := lines [
  txt "          \{";
  txt "            extractorId: '([^']+)',";
  txt "            confidence: (0\.\d+)( as any)?,";
  txt "            dataPoints: (\d+),";
  txt "            data: (\{[^}]*\}),";
  txt "            timestamp: Date\.now\(\),";
  txt "            duration: (\d+),";
  txt "          \}" ].

Definition replacement : text := lines [
  txt "          {";
  txt "            success: true,";
  txt "            data: \5,";
  txt "            confidence: {";
  txt "              overall: \2,";
  txt "              dataQuality: \2,";
  txt "              sourceCount: \4,";
  txt "            },";
  txt "            metadata: {";
  txt "              extractorId: '\1',";
  txt "              taskType: 'customer_profile' as any,";
  txt "              model: 'HAIKU' as any,";
  txt "              fromCache: false,";
  txt "              timing: { total: \6 },";
  txt "              timestamp: Date.now(),";
  txt "            },";
  txt "          } as any" ].

Definition rewrite (content : text) : option text :=
  re_sub pattern (Template replacement) content [].

End Synthesis.


(* ================================================================== *)
(** ** The three rewrite rules *)

Inductive rule : Type :=
| MegaFlat       (* fix-megaprompt-tests.py, pattern / replacement *)
| MegaInsights   (* fix-megaprompt-tests.py, pattern2 / replacement2 *)
| SynthFlat.     (* fix-synthesis-tests.py, pattern / replacement *)

Definition rule_pattern (ru : rule) : text :=
  match ru with
  | MegaFlat => Megaprompt.pattern
  | MegaInsights => Megaprompt.pattern2
  | SynthFlat => Synthesis.pattern
  end.

Definition rule_repl (ru : rule) : repl :=
  match ru with
  | MegaFlat => Callable Megaprompt.replacement
  | MegaInsights => Callable Megaprompt.replacement2
  | SynthFlat => Template Synthesis.replacement
  end.

Definition rule_flags (ru : rule) : list flag :=
  match ru with
  | SynthFlat => []
  | _ => [MULTILINE]
  end.

Definition apply_rule (ru : rule) (content : text) : option text :=
  re_sub (rule_pattern ru) (rule_repl ru) content (rule_flags ru).

(** The compiled patterns and the compiled template, computed once. *)
Definition or_eps (o : option regex) : regex :=
  match o with Some r => r | None => Eps end.

Definition regex_mega : regex :=
  Eval vm_compute in or_eps (re_compile Megaprompt.pattern).

Definition regex_insights : regex :=
  Eval vm_compute in or_eps (re_compile Megaprompt.pattern2).

Definition regex_synth : regex :=
  Eval vm_compute in or_eps (re_compile Synthesis.pattern).

Definition template_synth : list titem :=
  Eval vm_compute in
    match compile_template Synthesis.replacement (groups regex_synth) with
    | Some its => its
    | None => []
    end.

Definition rule_regex (ru : rule) : regex :=
  match ru with
  | MegaFlat => regex_mega
  | MegaInsights => regex_insights
  | SynthFlat => regex_synth
  end.

Definition rule_fn (ru : rule) : captures -> option text :=
  match ru with
  | MegaFlat => Megaprompt.replacement
  | MegaInsights => Megaprompt.replacement2
  | SynthFlat => fun c => Some (expand template_synth c)
  end.

(* ------------------------------------------------------------------ *)
(** *** [re.search] and the spans of a scan *)

(** The offset of the leftmost match, as [re.search] finds it. *)
Fixpoint search (r : regex) (s : text) : option nat :=
  match match_at r s with
  | Some _ => Some 0
  | None =>
      match s with
      | [] => None
      | _ :: s' => option_map S (search r s')
      end
  end.

(** A scanned text cut into the stretches copied as they are and the
    spans replaced. *)
Inductive segment : Type :=
| Kept (s : text)
| Replaced (old new : text).

Definition source (g : segment) : text :=
  match g with Kept s => s | Replaced old _ => old end.

Definition image (g : segment) : text :=
  match g with Kept s => s | Replaced _ new => new end.

Definition sources (gs : list segment) : text := concat (map source gs).
Definition images (gs : list segment) : text := concat (map image gs).

(** [scanned r f s gs]: the scan of [s] copies one character where the
    pattern does not match and replaces the whole match where it does. *)
Inductive scanned (r : regex) (f : captures -> option text)
  : text -> list segment -> Prop :=
| scanned_end : match_at r [] = None -> scanned r f [] []
| scanned_copy a s gs :
    match_at r (a :: s) = None ->
    scanned r f s gs ->
    scanned r f (a :: s) (Kept [a] :: gs)
| scanned_match s n c new gs :
    match_at r s = Some (n, c) ->
    0 < n <= length s ->
    f c = Some new ->
    scanned r f (skipn n s) gs ->
    scanned r f s (Replaced (firstn n s) new :: gs).

(* ================================================================== *)
(** ** Running a script: read, rewrite, write back, report *)

Inductive exn : Type :=
| FileNotFoundError
| ReError.

Record world : Type := World {
  files : string -> option text;   (* the files that exist, by path *)
  stdout : list string
}.

Definition write_file (path : string) (t : text) (w : world) : world :=
  World (fun q => if String.eqb q path then Some t else files w q) (stdout w).

Definition print (line : string) (w : world) : world :=
  World (files w) (stdout w ++ [line]).

(** [with open(filepath, 'r') as f: content = f.read()], the
    substitutions, [with open(filepath, 'w') as f: f.write(content)] and
    the final [print]. An exception ends the run where it is raised. *)
Definition main (filepath : string) (rewrite : text -> option text)
           (w : world) : world * option exn :=
  match files w filepath with
  | None => (w, Some FileNotFoundError)
  | Some content =>
      match rewrite content with
      | None => (w, Some ReError)
      | Some content' =>
          (print ("Fixed " ++ filepath)%string
                 (write_file filepath content' w), None)
      end
  end.

(** The status the interpreter exits with: 1 on an uncaught exception. *)
Definition exit_status (e : option exn) : nat :=
  match e with None => 0 | Some _ => 1 end.

Definition main_megaprompt : world -> world * option exn :=
  main Megaprompt.filepath Megaprompt.rewrite.

Definition main_synthesis : world -> world * option exn :=
  main Synthesis.filepath Synthesis.rewrite.

(* ================================================================== *)
(** ** What a pattern accepts *)

(** A run of characters of one class, and a run that is not empty. *)
Definition run (k : cclass) (w : text) : Prop :=
  Forall (fun a => in_class k a = true) w.

Definition run1 (k : cclass) (w : text) : Prop := w <> [] /\ run k w.

(** What a pattern accepts, and the groups it closes on the way. *)
Fixpoint den (r : regex) (s : text) (c c' : captures) : Prop :=
  match r with
  | Eps => s = [] /\ c' = c
  | Lit l => s = l /\ c' = c
  | Cls k => (exists a, s = [a] /\ in_class k a = true) /\ c' = c
  | Plus k => run1 k s /\ c' = c
  | Star k => run k s /\ c' = c
  | Opt r' => den r' s c c' \/ (s = [] /\ c' = c)
  | Grp n r' => exists c1, den r' s c c1 /\ c' = (n, s) :: c1
  | Cat r1 r2 =>
      exists s1 s2 c1, s = s1 ++ s2 /\ den r1 s1 c c1 /\ den r2 s2 c1 c'
  end.

(** [stops k after]: a greedy run of class [k] cannot go on into [after]. *)
Definition stops (k : cclass) (after : text) : Prop :=
  match after with
  | [] => True
  | a :: _ => in_class k a = false
  end.

(** [det r w after c c']: [r] accepts [w] in front of [after] and the
    matcher has no other way through: each greedy run stops where [w]
    says, and an option that is skipped cannot be taken. *)
Fixpoint det (r : regex) (w after : text) (c c' : captures) : Prop :=
  match r with
  | Eps => w = [] /\ c' = c
  | Lit l => w = l /\ c' = c
  | Cls k => (exists a, w = [a] /\ in_class k a = true) /\ c' = c
  | Plus k => (run1 k w /\ stops k after) /\ c' = c
  | Star k => (run k w /\ stops k after) /\ c' = c
  | Opt r' =>
      det r' w after c c'
      \/ (w = [] /\ c' = c
          /\ forall k st, rest st = after -> m r' k st = None)
  | Grp n r' => exists c1, det r' w after c c1 /\ c' = (n, w) :: c1
  | Cat r1 r2 =>
      exists w1 w2 c1,
        w = w1 ++ w2 /\ det r1 w1 (w2 ++ after) c c1 /\ det r2 w2 after c1 c'
  end.

(* ================================================================== *)
(** ** The flat shape and the nested shape *)

(** The pieces of a flat object literal as the three patterns read it:
    the white space before each line, the field values, and the two
    places where one pattern reads more than the others: [cast] after the
    confidence, and the [insights] line (its white space and its list)
    between [data] and [timestamp]. *)
Record flat : Type := Flat {
  indent : text;
  ws_id : text;
  extractorId : text;
  ws_conf : text;
  conf_digits : text;
  cast : text;
  ws_points : text;
  dataPoints : text;
  ws_data : text;
  data_body : text;
  insights : option (text * text);
  ws_time : text;
  ws_dur : text;
  duration : text;
  ws_close : text
}.

Definition confidence (b : flat) : text := txt "0." ++ conf_digits b.

Definition data (b : flat) : text := txt "{" ++ data_body b ++ txt "}".

(** The block from its opening to its closing brace, then [after]. *)
Definition insights_line (wm l : text) : text :=
  wm ++ txt "metadata: { insights: [" ++ l ++ txt "] }," ++ [nl].

Definition extra (b : flat) : text :=
  match insights b with
  | Some (wm, l) => insights_line wm l
  | None => []
  end.

(** The block from its opening to its closing brace, then [after]. *)
Definition block_text (b : flat) (after : text) : text :=
  txt "{" ++ nl :: ws_id b ++ txt "extractorId: '" ++ extractorId b
  ++ txt "'," ++ nl :: ws_conf b ++ txt "confidence: " ++ confidence b
  ++ cast b ++ txt "," ++ nl :: ws_points b ++ txt "dataPoints: "
  ++ dataPoints b ++ txt "," ++ nl :: ws_data b ++ txt "data: " ++ data b
  ++ txt "," ++ nl :: extra b ++ ws_time b ++ txt "timestamp: Date.now(),"
  ++ nl :: ws_dur b ++ txt "duration: " ++ duration b ++ txt ","
  ++ nl :: ws_close b ++ txt "}" ++ after.

Definition flat_text (b : flat) (after : text) : text :=
  indent b ++ block_text b after.

(** What each pattern reads after the closing brace. *)
Definition trailer (ru : rule) : text :=
  match ru with
  | SynthFlat => []
  | _ => txt " as ExtractionResult"
  end.

Definition spaces (n : nat) : text := repeat " "%char n.

(** The flat literals each pattern matches. *)
Definition shaped (ru : rule) (b : flat) : Prop :=
  run1 (NotChar "'") (extractorId b) /\ run1 Digit (conf_digits b)
  /\ run1 Digit (dataPoints b) /\ run1 Digit (duration b)
  /\ run (NotChar "}") (data_body b)
  /\ match ru with
     | SynthFlat =>
         indent b = spaces 10 /\ ws_id b = spaces 12 /\ ws_conf b = spaces 12
         /\ ws_points b = spaces 12 /\ ws_data b = spaces 12
         /\ ws_time b = spaces 12 /\ ws_dur b = spaces 12
         /\ ws_close b = spaces 10
         /\ (cast b = [] \/ cast b = txt " as any") /\ insights b = None
     | _ =>
         run1 Space (indent b) /\ run1 Space (ws_id b)
         /\ run1 Space (ws_conf b) /\ run1 Space (ws_points b)
         /\ run1 Space (ws_data b) /\ run1 Space (ws_time b)
         /\ run1 Space (ws_dur b) /\ run1 Space (ws_close b)
         /\ cast b = []
         /\ match ru with
            | MegaInsights =>
                data_body b = []
                /\ exists wm l, run1 Space wm /\ run1 (NotChar "]") l
                                /\ insights b = Some (wm, l)
            | _ => data_body b <> [] /\ insights b = None
            end
     end.

(** The lexical side of a shape: what every pattern asks of the pieces. *)
Definition lexical (b : flat) : Prop :=
  run Space (indent b) /\ run Space (ws_id b) /\ run Space (ws_conf b)
  /\ run Space (ws_points b) /\ run Space (ws_data b)
  /\ run Space (ws_time b) /\ run Space (ws_dur b) /\ run Space (ws_close b)
  /\ run (NotChar "'") (extractorId b) /\ run Digit (conf_digits b)
  /\ run Digit (dataPoints b) /\ run Digit (duration b)
  /\ run (NotChar "}") (data_body b)
  /\ (cast b = [] \/ cast b = txt " as any").

(** The groups a match of each pattern closes, latest first. *)
Definition captures_of (ru : rule) (b : flat) : captures :=
  match ru with
  | MegaFlat =>
      [(2, block_text b []); (7, duration b); (6, data b); (5, dataPoints b);
       (4, confidence b); (3, extractorId b); (1, indent b)]
  | MegaInsights =>
      [(2, block_text b []); (6, duration b); (5, dataPoints b);
       (4, confidence b); (3, extractorId b); (1, indent b)]
  | SynthFlat =>
      [(6, duration b); (5, data b); (4, dataPoints b)]
      ++ match cast b with [] => [] | _ :: _ => [(3, cast b)] end
      ++ [(2, confidence b); (1, extractorId b)]
  end.

(** The nested literal that replaces a flat one. *)
Definition nested_text (b : flat) : text :=
  Megaprompt.nested (indent b) (data b) (confidence b) (dataPoints b)
                    (extractorId b) (duration b).

(* ------------------------------------------------------------------ *)
(** *** Writing out the text a pattern accepts

    [ps] lists what the classes of the pattern stand for, in the order of
    the pattern; an option takes one entry, empty when it is skipped. *)

Fixpoint text_of (r : regex) (ps : list text) : text * list text :=
  match r with
  | Eps => ([], ps)
  | Lit l => (l, ps)
  | Cls _ | Plus _ | Star _ => (hd [] ps, tl ps)
  | Opt r' =>
      match ps with
      | [] :: ps' => ([], ps')
      | _ :: ps' => text_of r' ps'
      | [] => ([], [])
      end
  | Grp _ r' => text_of r' ps
  | Cat r1 r2 =>
      let (w1, ps1) := text_of r1 ps in
      let (w2, ps2) := text_of r2 ps1 in
      (w1 ++ w2, ps2)
  end.

Fixpoint caps_of (r : regex) (ps : list text) (c : captures) : captures :=
  match r with
  | Opt r' =>
      match ps with
      | [] :: _ => c
      | _ :: ps' => caps_of r' ps' c
      | [] => c
      end
  | Grp n r' => (n, fst (text_of r' ps)) :: caps_of r' ps c
  | Cat r1 r2 => caps_of r2 (snd (text_of r1 ps)) (caps_of r1 ps c)
  | _ => c
  end.

Fixpoint fits (r : regex) (ps : list text) (after : text) : Prop :=
  match r with
  | Eps | Lit _ => True
  | Cls k => exists a, hd [] ps = [a] /\ in_class k a = true
  | Plus k => run1 k (hd [] ps) /\ stops k after
  | Star k => run k (hd [] ps) /\ stops k after
  | Opt r' =>
      match ps with
      | [] :: _ => forall k st, rest st = after -> m r' k st = None
      | _ :: ps' => fits r' ps' after
      | [] => False
      end
  | Grp _ r' => fits r' ps after
  | Cat r1 r2 =>
      fits r1 ps (fst (text_of r2 (snd (text_of r1 ps))) ++ after)
      /\ fits r2 (snd (text_of r1 ps)) after
  end.

(** The entries of a flat literal for each pattern. *)
Definition pieces (ru : rule) (b : flat) : list text :=
  match ru with
  | MegaFlat =>
      [indent b; ws_id b; extractorId b; ws_conf b; conf_digits b;
       ws_points b; dataPoints b; ws_data b; data_body b; ws_time b;
       ws_dur b; duration b; ws_close b]
  | MegaInsights =>
      match insights b with
      | Some (wm, l) =>
          [indent b; ws_id b; extractorId b; ws_conf b; conf_digits b;
           ws_points b; dataPoints b; ws_data b; wm; l; ws_time b;
           ws_dur b; duration b; ws_close b]
      | None => []
      end
  | SynthFlat =>
      [extractorId b; conf_digits b; cast b; dataPoints b; data_body b;
       duration b]
  end.

(* ================================================================== *)
(** ** The two scripts as programs, and what the properties speak of *)

Inductive script : Type :=
| FixMegaprompt
| FixSynthesis.

Definition script_path (sc : script) : string :=
  match sc with
  | FixMegaprompt => Megaprompt.filepath
  | FixSynthesis => Synthesis.filepath
  end.

Definition script_rewrite (sc : script) : text -> option text :=
  match sc with
  | FixMegaprompt => Megaprompt.rewrite
  | FixSynthesis => Synthesis.rewrite
  end.

(** The rules of a script, in the order it applies them. *)
Definition script_rules (sc : script) : list rule :=
  match sc with
  | FixMegaprompt => [MegaFlat; MegaInsights]
  | FixSynthesis => [SynthFlat]
  end.

Definition run_script (sc : script) : world -> world * option exn :=
  main (script_path sc) (script_rewrite sc).

(** [re.search(pattern, content)]: [Some None] when nothing matches. *)
Definition re_search (pattern content : text) : option (option nat) :=
  r <- re_compile pattern ;; Some (search r content).

(** No pattern of the script matches anywhere in [content]. *)
Definition stable (sc : script) (content : text) : bool :=
  forallb (fun ru => match re_search (rule_pattern ru) content with
                     | Some None => true
                     | _ => false
                     end)
          (script_rules sc).

(** No match starts inside [kept] when [later] follows it. *)
Fixpoint unmatched (r : regex) (kept later : text) : bool :=
  match kept with
  | [] => true
  | _ :: kept' =>
      match match_at r (kept ++ later) with
      | Some _ => false
      | None => unmatched r kept' later
      end
  end.

(** [p] occurs somewhere in [s]. *)
Fixpoint contains (p s : text) : bool :=
  match eat p s with
  | Some _ => true
  | None =>
      match s with
      | [] => false
      | _ :: s' => contains p s'
      end
  end.



Fixpoint eqb_text (s t : text) : bool :=
  match s, t with
  | [], [] => true
  | a :: s', b :: t' => Ascii.eqb a b && eqb_text s' t'
  | _, _ => false
  end.



(** Every character of [w] is of class [k]. *)
Definition all_in (k : cclass) (w : text) : bool := forallb (in_class k) w.



(* ------------------------------------------------------------------ *)
(** *** The fixture of the capture-fidelity property *)

(** As the specification writes it, on one line. *)
Definition c1_literal : text :=
  txt "{ extractorId: 'demographics', confidence: 0.85, dataPoints: 3, data: {foo: 1}, timestamp: Date.now(), duration: 120 }".

(** As the test files lay such a literal out. *)
Definition c1_flat : text := lines [
  txt "          {";
  txt "            extractorId: 'demographics',";
  txt "            confidence: 0.85,";
  txt "            dataPoints: 3,";
  txt "            data: {foo: 1},";
  txt "            timestamp: Date.now(),";
  txt "            duration: 120,";
  txt "          } as ExtractionResult," ].

Definition c1_nested : text := lines [
  txt "          {";
  txt "            success: true,";
  txt "            data: {foo: 1},";
  txt "            confidence: {";
  txt "              overall: 0.85,";
  txt "              dataQuality: 0.85,";
  txt "              sourceCount: 3,";
  txt "            },";
  txt "            metadata: {";
  txt "              extractorId: 'demographics',";
  txt "              taskType: 'customer_profile' as any,";
  txt "              model: 'HAIKU' as any,";
  txt "              fromCache: false,";
  txt "              timing: { total: 120 },";
  txt "              timestamp: Date.now(),";
  txt "            },";
  txt "          } as any" ].

(** The fragments the property looks for in the output. *)
Definition has_nested (out : text) : bool :=
  contains (lines [txt "            metadata: {";
                   txt "              extractorId: 'demographics',"]) out
  && contains (lines [txt "            confidence: {";
                      txt "              overall: 0.85,"]) out
  && contains (txt "sourceCount: 3,") out
  && contains (txt "timing: { total: 120 },") out
  && contains (txt "data: {foo: 1},") out.



(* ------------------------------------------------------------------ *)
(** *** Inputs on which a rewritten text matches again *)









(** A flat literal whose data value holds a nested object, laid out so
    that the fields after that object read like the end of a flat
    literal. *)
Definition c9_value : text := lines [
  txt "{a: {b: 1},";
  txt "            timestamp: Date.now(),";
  txt "            duration: 5,";
  txt "          }" ].

Definition c9_input : text := lines [
  txt "          {";
  txt "            extractorId: 'x',";
  txt "            confidence: 0.5,";
  txt "            dataPoints: 3,";
  txt "            data: " ++ c9_value ++ txt ",";
  txt "            timestamp: Date.now(),";
  txt "            duration: 120,";
  txt "          }" ].

Definition c9_output : text := lines [
  txt "          {";
  txt "            success: true,";
  txt "            data: {a: {b: 1},";
  txt "            confidence: {";
  txt "              overall: 0.5,";
  txt "              dataQuality: 0.5,";
  txt "              sourceCount: 3,";
  txt "            },";
  txt "            metadata: {";
  txt "              extractorId: 'x',";
  txt "              taskType: 'customer_profile' as any,";
  txt "              model: 'HAIKU' as any,";
  txt "              fromCache: false,";
  txt "              timing: { total: 5 },";
  txt "              timestamp: Date.now(),";
  txt "            },";
  txt "          } as any,";
  txt "            timestamp: Date.now(),";
  txt "            duration: 120,";
  txt "          }" ].

(** Flat literals whose confidence is not [0.] and digits. *)
Definition c8_block (v : text) : text := lines [
  txt "          {";
  txt "            extractorId: 'demographics',";
  txt "            confidence: " ++ v ++ txt ",";
  txt "            dataPoints: 3,";
  txt "            data: {foo: 1},";
  txt "            timestamp: Date.now(),";
  txt "            duration: 120,";
  txt "          } as ExtractionResult," ].

(* ------------------------------------------------------------------ *)
(** *** The pieces of the two shapes after their opening brace *)





(* ------------------------------------------------------------------ *)
(** *** The matches a scan takes *)








(* ------------------------------------------------------------------ *)
(** *** Checking a flat literal field by field *)

Definition nonempty (w : text) : bool :=
  match w with
  | [] => false
  | _ :: _ => true
  end.

(** [w] is a run of [k] of at least one character. *)
Definition run1b (k : cclass) (w : text) : bool := nonempty w && all_in k w.

Definition no_insights (b : flat) : bool :=
  match insights b with
  | None => true
  | Some _ => false
  end.

(** The fields of [b] are what the pattern of [ru] asks for. *)
Definition well_shaped (ru : rule) (b : flat) : bool :=
  run1b (NotChar "'") (extractorId b) && run1b Digit (conf_digits b)
  && run1b Digit (dataPoints b) && run1b Digit (duration b)
  && all_in (NotChar "}") (data_body b)
  && match ru with
     | SynthFlat =>
         eqb_text (indent b) (spaces 10) && eqb_text (ws_id b) (spaces 12)
         && eqb_text (ws_conf b) (spaces 12)
         && eqb_text (ws_points b) (spaces 12)
         && eqb_text (ws_data b) (spaces 12)
         && eqb_text (ws_time b) (spaces 12)
         && eqb_text (ws_dur b) (spaces 12)
         && eqb_text (ws_close b) (spaces 10)
         && (eqb_text (cast b) [] || eqb_text (cast b) (txt " as any"))
         && no_insights b
     | _ =>
         run1b Space (indent b) && run1b Space (ws_id b)
         && run1b Space (ws_conf b) && run1b Space (ws_points b)
         && run1b Space (ws_data b) && run1b Space (ws_time b)
         && run1b Space (ws_dur b) && run1b Space (ws_close b)
         && eqb_text (cast b) []
         && match ru with
            | MegaInsights =>
                eqb_text (data_body b) []
                && match insights b with
                   | Some (wm, l) => run1b Space wm && run1b (NotChar "]") l
                   | None => false
                   end
            | _ => nonempty (data_body b) && no_insights b
            end
     end.

(** [b] and [b'] agree on the six fields the replacement uses. *)
Definition same_fields (b b' : flat) : bool :=
  eqb_text (indent b) (indent b')
  && eqb_text (extractorId b) (extractorId b')
  && eqb_text (conf_digits b) (conf_digits b')
  && eqb_text (dataPoints b) (dataPoints b')
  && eqb_text (data_body b) (data_body b')
  && eqb_text (duration b) (duration b').

(** A replaced span is a flat literal of the rule's shape, and what
    replaces it is the nested literal with the same fields. *)
Definition literal_segment (ru : rule) (g : segment) : Prop :=
  match g with
  | Kept _ => True
  | Replaced old new =>
      exists b, shaped ru b /\ old = flat_text b (trailer ru)
                /\ new = nested_text b
  end.

(** What a run that succeeds leaves behind. *)
Definition fixed (sc : script) (out : text) (w : world) : world :=
  print ("Fixed " ++ script_path sc)%string (write_file (script_path sc) out w).

(* ------------------------------------------------------------------ *)
(** *** Fixtures of the properties of the runs *)

(** A literal as fix-synthesis reads it, with and without the cast. *)
Definition x_flat (cast : text) : flat :=
  Flat (spaces 10) (spaces 12) (txt "demographics") (spaces 12) (txt "85")
       cast (spaces 12) (txt "3") (spaces 12) (txt "foo: 1") None
       (spaces 12) (spaces 12) (txt "120") (spaces 10).

Definition x_before : text := txt "const results = [" ++ [nl].

Definition x_after : text := txt "," ++ nl :: txt "]".


(** Two pieces of text that a match of the patterns holds. *)
Definition timestamp_line : text := txt "timestamp: Date.now(),".

Definition cast_end : text := txt "} as ExtractionResult".
(* ================================================================== *)
(** ** Soundness of the matcher *)

Lemma eat_sound l s s' : eat l s = Some s' -> s = l ++ s'.
Proof.
  revert s; induction l as [|a l IH]; intros s H; simpl in *.
  - now inversion H.
  - destruct s as [|b s]; [discriminate|].
    destruct (Ascii.eqb a b) eqn:E; [|discriminate].
    apply Ascii.eqb_eq in E; subst b. now rewrite (IH _ H).
Qed.

Lemma greedy_sound p k n s out :
  greedy p k n s = Some out ->
  exists w s', s = w ++ s' /\ Forall (fun a => p a = true) w
               /\ k (n + length w) s' = Some out.
Proof.
  revert n; induction s as [|a s IH]; intros n H; simpl in H.
  - exists [], []. simpl. now rewrite Nat.add_0_r.
  - destruct (p a) eqn:Pa.
    + destruct (greedy p k (S n) s) eqn:G.
      * inversion H; subst. destruct (IH _ G) as (w & s' & -> & Fw & Hk).
        exists (a :: w), s'. simpl. repeat split; auto.
        now rewrite Nat.add_succ_r.
      * exists [], (a :: s). simpl. now rewrite Nat.add_0_r.
    + exists [], (a :: s). simpl. now rewrite Nat.add_0_r.
Qed.

Lemma m_sound r : forall k st out,
  m r k st = Some out ->
  exists s rest' c',
    rest st = s ++ rest' /\ den r s (caps st) c'
    /\ k (MState (pos st + length s) rest' c') = Some out.
Proof.
  induction r as [|l|c|c|c|r IH|n r IH|r1 IH1 r2 IH2]; intros k st out H;
    simpl in H.
  - exists [], (rest st), (caps st). simpl. rewrite Nat.add_0_r.
    destruct st; auto.
  - destruct (eat l (rest st)) as [s'|] eqn:E; [|discriminate].
    apply eat_sound in E. exists l, s', (caps st). simpl; auto.
  - destruct (rest st) as [|a s'] eqn:E; [discriminate|].
    destruct (in_class c a) eqn:Ca; [|discriminate].
    exists [a], s', (caps st). simpl. rewrite Nat.add_1_r.
    repeat split; eauto.
  - destruct (rest st) as [|a s'] eqn:E; [discriminate|].
    destruct (in_class c a) eqn:Ca; [|discriminate].
    apply greedy_sound in H. destruct H as (w & s'' & -> & Fw & Hk).
    exists (a :: w), s'', (caps st). simpl.
    rewrite Nat.add_succ_r. simpl in Hk. unfold run1, run.
    repeat split; auto. discriminate.
  - apply greedy_sound in H. destruct H as (w & s'' & E & Fw & Hk).
    exists w, s'', (caps st). simpl. auto.
  - destruct (m r k st) eqn:E.
    + inversion H; subst. destruct (IH _ _ _ E) as (s & rest' & c' & ? & ? & ?).
      exists s, rest', c'. simpl; auto.
    + exists [], (rest st), (caps st). simpl. rewrite Nat.add_0_r.
      destruct st; auto.
  - destruct (IH _ _ _ H) as (s & rest' & c' & E & D & Hk). simpl in Hk.
    exists s, rest', ((n, s) :: c'). simpl.
    replace (pos st + length s - pos st) with (length s) in Hk by lia.
    rewrite E, firstn_app, firstn_all, Nat.sub_diag in Hk. simpl in Hk.
    rewrite app_nil_r in Hk. repeat split; eauto.
  - destruct (IH1 _ _ _ H) as (s1 & rest1 & c1 & E1 & D1 & H1).
    destruct (IH2 _ _ _ H1) as (s2 & rest2 & c2 & E2 & D2 & H2).
    simpl in E2. exists (s1 ++ s2), rest2, c2. simpl.
    rewrite E1, E2, <- app_assoc, length_app, Nat.add_assoc.
    repeat split; auto. exists s1, s2, c1. auto.
Qed.

Lemma match_at_sound r s n c :
  match_at r s = Some (n, c) ->
  exists w, s = w ++ skipn n s /\ n = length w /\ den r w [] c.
Proof.
  unfold match_at. intros H.
  destruct (m r Some (MState 0 s [])) as [st|] eqn:E; [|discriminate].
  inversion H; subst; clear H.
  destruct (m_sound _ _ _ E) as (w & rest' & c' & Es & D & Hk).
  simpl in *. inversion Hk; subst; simpl.
  exists w. rewrite skipn_app, skipn_all, Nat.sub_diag. simpl. auto.
Qed.
(* ================================================================== *)
(** ** Completeness of the matcher on deterministic patterns *)

Lemma eat_app l s : eat l (l ++ s) = Some s.
Proof.
  induction l as [|a l IH]; simpl; auto. now rewrite Ascii.eqb_refl.
Qed.

Lemma greedy_stop k p n w after out :
  run k w -> stops k after ->
  p (n + length w) after = Some out ->
  greedy (in_class k) p n (w ++ after) = Some out.
Proof.
  intros Hw Hs. revert n. induction Hw as [|a w Ha Hw IH]; intros n Hp; simpl in *.
  - rewrite Nat.add_0_r in Hp. destruct after as [|b after]; simpl; auto.
    unfold stops in Hs. now rewrite Hs.
  - rewrite Ha. rewrite (IH (S n)); auto.
    now rewrite Nat.add_succ_r in Hp.
Qed.

Lemma m_complete r : forall w after c' k st out,
  det r w after (caps st) c' ->
  rest st = w ++ after ->
  k (MState (pos st + length w) after c') = Some out ->
  m r k st = Some out.
Proof.
  induction r as [|l|c|c|c|r IH|n r IH|r1 IH1 r2 IH2];
    intros w after c' k st out D E Hk; simpl in D |- *.
  - destruct D as [-> ->]. simpl in *. rewrite Nat.add_0_r in Hk.
    destruct st; simpl in *; subst; auto.
  - destruct D as [-> ->]. rewrite E, eat_app. auto.
  - destruct D as [(a & -> & Ha) ->]. rewrite E. simpl. rewrite Ha.
    simpl in Hk. now rewrite Nat.add_1_r in Hk.
  - destruct D as [[[Hne Hw] Hs] ->]. rewrite E.
    destruct w as [|a w]; [congruence|]. inversion Hw; subst.
    simpl. rewrite H1. apply greedy_stop; auto.
    simpl in Hk. now rewrite Nat.add_succ_r in Hk.
  - destruct D as [[Hw Hs] ->]. rewrite E. apply greedy_stop; auto.
  - destruct D as [D | (-> & -> & Hn)].
    + now rewrite (IH _ _ _ _ _ _ D E Hk).
    + simpl in *. rewrite (Hn k st E). rewrite Nat.add_0_r in Hk.
      destruct st; simpl in *; subst; auto.
  - destruct D as (c1 & D & ->).
    eapply IH; eauto. simpl.
    replace (pos st + length w - pos st) with (length w) by lia.
    rewrite E, firstn_app, firstn_all, Nat.sub_diag. simpl.
    now rewrite app_nil_r.
  - destruct D as (w1 & w2 & c1 & -> & D1 & D2).
    rewrite <- app_assoc in E.
    eapply IH1; eauto.
    eapply IH2; eauto. simpl.
    now rewrite length_app, Nat.add_assoc in Hk.
Qed.

Lemma match_at_complete r w after c :
  det r w after [] c ->
  match_at r (w ++ after) = Some (length w, c).
Proof.
  intros D. unfold match_at.
  rewrite (@m_complete r w after c Some (MState 0 (w ++ after) [])
             (MState (length w) after c)); auto.
Qed.

Lemma det_fill r : forall ps after c,
  fits r ps after -> det r (fst (text_of r ps)) after c (caps_of r ps c).
Proof.
  induction r as [|l|k|k|k|r IH|n r IH|r1 IH1 r2 IH2]; intros ps after c F;
    simpl in *; auto.
  - destruct ps as [|[|a p] ps]; simpl in *; auto.
    + contradiction.
  - eauto.
  - destruct (text_of r1 ps) as [w1 ps1] eqn:E1. simpl in *.
    destruct (text_of r2 ps1) as [w2 ps2] eqn:E2. simpl in *.
    destruct F as [F1 F2].
    exists w1, w2, (caps_of r1 ps c). split; auto. split.
    + specialize (IH1 ps (w2 ++ after) c F1). now rewrite E1 in IH1.
    + specialize (IH2 ps1 after (caps_of r1 ps c) F2). now rewrite E2 in IH2.
Qed.
(* ================================================================== *)
(** ** The three patterns accept the flat shape, and nothing else *)

Ltac break :=
  repeat match goal with
  | H : exists _, _ |- _ => destruct H as [? H]
  | H : _ /\ _ |- _ => destruct H as [? H]
  | H : _ \/ _ |- _ => destruct H as [H|H]
  | H : ?x = _ |- _ => is_var x; subst x
  | H : _ = ?x |- _ => is_var x; subst x
  end.

Ltac norm :=
  repeat (progress (repeat rewrite <- app_assoc;
                    cbn [app txt list_ascii_of_string])).

Ltac fields :=
  cbn [indent ws_id extractorId ws_conf conf_digits cast ws_points
       dataPoints ws_data data_body insights ws_time ws_dur duration
       ws_close].

Ltac unfold_flat :=
  unfold flat_text, block_text, trailer, confidence, data, extra,
    insights_line, spaces;
  fields; cbn [repeat].

Lemma compiled ru : re_compile (rule_pattern ru) = Some (rule_regex ru).
Proof. destruct ru; vm_compute; reflexivity. Qed.

Lemma compiled_template :
  compile_template Synthesis.replacement (groups regex_synth)
  = Some template_synth.
Proof. vm_compute; reflexivity. Qed.

Lemma apply_rule_scan ru content :
  apply_rule ru content = sub_scan (rule_regex ru) (rule_fn ru) 0 content.
Proof.
  unfold apply_rule, re_sub. rewrite compiled.
  destruct ru; cbn [rule_repl rule_regex rule_fn]; reflexivity.
Qed.

Lemma den_mega w c :
  den regex_mega w [] c ->
  exists b, shaped MegaFlat b /\ w = flat_text b (trailer MegaFlat)
            /\ c = captures_of MegaFlat b.
Proof.
  intros D. unfold regex_mega in D. cbn [den] in D. break.
  eexists (Flat _ _ _ _ _ [] _ _ _ _ None _ _ _ _).
  split; [|split].
  2: { unfold_flat. norm. reflexivity. }
  2: { unfold captures_of. unfold_flat. norm. reflexivity. }
  unfold shaped, run1 in *; fields. tauto.
Qed.

Lemma den_insights w c :
  den regex_insights w [] c ->
  exists b, shaped MegaInsights b /\ w = flat_text b (trailer MegaInsights)
            /\ c = captures_of MegaInsights b.
Proof.
  intros D. unfold regex_insights in D. cbn [den] in D. break.
  eexists (Flat _ _ _ _ _ [] _ _ _ [] (Some (_, _)) _ _ _ _).
  split; [|split].
  2: { unfold_flat. norm. reflexivity. }
  2: { unfold captures_of. unfold_flat. norm. reflexivity. }
  unfold shaped, run1 in *; fields.
  repeat split; try tauto; try apply Forall_nil.
  do 2 eexists. split; [|split]. 3: reflexivity. all: tauto.
Qed.

Lemma den_synth w c :
  den regex_synth w [] c ->
  exists b, shaped SynthFlat b /\ w = flat_text b (trailer SynthFlat)
            /\ c = captures_of SynthFlat b.
Proof.
  intros D. unfold regex_synth in D. cbn [den] in D. break.
  - eexists (Flat (spaces 10) (spaces 12) _ (spaces 12) _ (txt " as any")
               (spaces 12) _ (spaces 12) _ None (spaces 12) (spaces 12) _
               (spaces 10)).
    split; [|split].
    2: { unfold_flat. norm. reflexivity. }
    2: { unfold captures_of. unfold_flat. norm. reflexivity. }
    unfold shaped, run1 in *; fields. tauto.
  - eexists (Flat (spaces 10) (spaces 12) _ (spaces 12) _ []
               (spaces 12) _ (spaces 12) _ None (spaces 12) (spaces 12) _
               (spaces 10)).
    split; [|split].
    2: { unfold_flat. norm. reflexivity. }
    2: { unfold captures_of. unfold_flat. norm. reflexivity. }
    unfold shaped, run1 in *; fields. tauto.
Qed.

Lemma flat_text_app b x y : flat_text b (x ++ y) = flat_text b x ++ y.
Proof.
  unfold flat_text, block_text. cbn [txt list_ascii_of_string].
  repeat (rewrite <- ?app_assoc; cbn [app]; try reflexivity; f_equal).
Qed.

(** Soundness: a match of a rule's pattern is a flat literal of the
    rule's shape, and its groups are the literal's fields. *)
Lemma rule_sound ru s n c :
  match_at (rule_regex ru) s = Some (n, c) ->
  exists b, shaped ru b /\ s = flat_text b (trailer ru ++ skipn n s)
            /\ n = length (flat_text b (trailer ru))
            /\ c = captures_of ru b.
Proof.
  intros H. apply match_at_sound in H. destruct H as (w & Es & En & D).
  assert (exists b, shaped ru b /\ w = flat_text b (trailer ru)
                    /\ c = captures_of ru b) as (b & Hb & -> & ->).
  { destruct ru; [apply den_mega | apply den_insights | apply den_synth];
      exact D. }
  exists b. rewrite flat_text_app. auto.
Qed.

Lemma pieces_text ru b :
  shaped ru b ->
  fst (text_of (rule_regex ru) (pieces ru b)) = flat_text b (trailer ru).
Proof.
  destruct b. unfold shaped; fields. intros H.
  destruct ru; break; unfold pieces; fields;
    cbn [rule_regex regex_mega regex_insights regex_synth text_of fst snd hd tl];
    unfold_flat; norm; reflexivity.
Qed.

Lemma pieces_caps ru b :
  shaped ru b ->
  caps_of (rule_regex ru) (pieces ru b) [] = captures_of ru b.
Proof.
  destruct b. unfold shaped; fields. intros H.
  destruct ru; break; unfold pieces, captures_of; fields;
    cbn [rule_regex regex_mega regex_insights regex_synth caps_of text_of
         fst snd hd tl];
    unfold_flat; norm; reflexivity.
Qed.
Lemma pieces_fit ru b after :
  shaped ru b -> fits (rule_regex ru) (pieces ru b) after.
Proof.
  destruct b. unfold shaped; fields. intros H.
  destruct ru; break; unfold pieces; fields;
    cbn [rule_regex regex_mega regex_insights regex_synth fits text_of
         fst snd hd tl app stops in_class];
    unfold spaces in *; cbn [repeat] in *.
  all: unfold run1 in *; repeat split; try tauto; try reflexivity.
  all: try (intros k st E; cbn [m]; rewrite E; reflexivity).
Qed.

(** Completeness: a flat literal of a rule's shape is matched, whole and
    with its fields as groups, whatever follows it. *)
Lemma rule_complete ru b after :
  shaped ru b ->
  match_at (rule_regex ru) (flat_text b (trailer ru ++ after))
  = Some (length (flat_text b (trailer ru)), captures_of ru b).
Proof.
  intros Hb. rewrite flat_text_app, <- (pieces_text Hb), <- (pieces_caps Hb).
  apply match_at_complete, det_fill, pieces_fit, Hb.
Qed.

(** What replaces a flat literal is its nested form. *)
Lemma rule_fn_shape ru b :
  shaped ru b -> rule_fn ru (captures_of ru b) = Some (nested_text b).
Proof.
  destruct b. unfold shaped; fields. intros H.
  destruct ru; break; unfold nested_text; fields.
  - reflexivity.
  - reflexivity.
  - cbn [rule_fn captures_of cast app]. f_equal.
    unfold template_synth. cbn [expand group_of Nat.eqb].
    unfold Megaprompt.nested, lines, spaces. cbn [repeat]. norm. reflexivity.
  - cbn [rule_fn captures_of cast app]. f_equal.
    unfold template_synth. cbn [expand group_of Nat.eqb txt list_ascii_of_string app].
    unfold Megaprompt.nested, lines, spaces. cbn [repeat]. norm. reflexivity.
Qed.

(* ================================================================== *)
(** ** The scan of [re.sub] *)

Section Scan.

Variable r : regex.
Variable f : captures -> option text.

Lemma sub_scan_0 s :
  sub_scan r f 0 s =
  match match_at r s with
  | Some (n, c) =>
      out <- f c ;;
      match n, s with
      | S k, _ :: s' => tl <- sub_scan r f k s' ;; Some (out ++ tl)
      | 0, a :: s' => tl <- sub_scan r f 0 s' ;; Some (out ++ a :: tl)
      | _, [] => Some out
      end
  | None =>
      match s with
      | a :: s' => tl <- sub_scan r f 0 s' ;; Some (a :: tl)
      | [] => Some []
      end
  end.
Proof. destruct s; reflexivity. Qed.

Lemma sub_scan_skip s : forall k,
  k <= length s -> sub_scan r f k s = sub_scan r f 0 (skipn k s).
Proof.
  induction s as [|a s IH]; intros [|k] Hk; try reflexivity.
  - simpl in Hk. lia.
  - simpl in Hk. cbn [sub_scan skipn]. apply IH. lia.
Qed.

Lemma scan_match s n c :
  match_at r s = Some (n, c) -> 0 < n <= length s ->
  sub_scan r f 0 s
  = (out <- f c ;; tl <- sub_scan r f 0 (skipn n s) ;; Some (out ++ tl)).
Proof.
  intros Hm Hn. rewrite sub_scan_0, Hm.
  destruct n as [|k]; [lia|]. destruct s as [|a s]; [simpl in Hn; lia|].
  rewrite sub_scan_skip by (simpl in Hn; lia). reflexivity.
Qed.

Lemma scan_copy a s :
  match_at r (a :: s) = None ->
  sub_scan r f 0 (a :: s) = (tl <- sub_scan r f 0 s ;; Some (a :: tl)).
Proof. intros Hm. now rewrite sub_scan_0, Hm. Qed.

Lemma scan_end : match_at r [] = None -> sub_scan r f 0 [] = Some [].
Proof. intros Hm. now rewrite sub_scan_0, Hm. Qed.

(** No match anywhere: the scan copies the text. *)
Lemma scan_no_match s : search r s = None -> sub_scan r f 0 s = Some s.
Proof.
  induction s as [|a s IH]; intros H; cbn [search] in H.
  - destruct (match_at r []) eqn:E; [discriminate|]. now apply scan_end.
  - destruct (match_at r (a :: s)) eqn:E; [discriminate|].
    rewrite scan_copy by exact E.
    destruct (search r s); [discriminate|]. now rewrite IH.
Qed.

(** Every match of the pattern takes at least one character, stays
    inside the text, and has a replacement. *)
Hypothesis matches_ok : forall s n c,
  match_at r s = Some (n, c) ->
  0 < n <= length s /\ exists new, f c = Some new.

Lemma scan_segments_bounded k : forall s,
  length s <= k ->
  exists gs, scanned r f s gs /\ sources gs = s
             /\ sub_scan r f 0 s = Some (images gs).
Proof.
  induction k as [|k IH]; intros s Hk.
  - destruct s; [|simpl in Hk; lia].
    destruct (match_at r []) as [[n c]|] eqn:E.
    + destruct (matches_ok _ E) as [Hn _]. simpl in Hn. lia.
    + exists []. repeat split; [now constructor | now apply scan_end].
  - destruct (match_at r s) as [[n c]|] eqn:E.
    + destruct (matches_ok _ E) as [Hn [new Hf]].
      destruct (IH (skipn n s)) as (gs & Hs & Hsrc & Hsub).
      { rewrite length_skipn. lia. }
      exists (Replaced (firstn n s) new :: gs). repeat split.
      * econstructor; eauto.
      * unfold sources in *. simpl. rewrite Hsrc. apply firstn_skipn.
      * rewrite scan_match with (1 := E) (2 := Hn); rewrite Hf, Hsub. reflexivity.
    + destruct s as [|a s].
      * exists []. repeat split; [now constructor | now apply scan_end].
      * destruct (IH s) as (gs & Hs & Hsrc & Hsub); [simpl in Hk; lia|].
        exists (Kept [a] :: gs). repeat split.
        -- now constructor.
        -- unfold sources in *. simpl. now rewrite Hsrc.
        -- rewrite scan_copy with (1 := E); rewrite Hsub. reflexivity.
Qed.

Lemma scan_segments s :
  exists gs, scanned r f s gs /\ sources gs = s
             /\ sub_scan r f 0 s = Some (images gs).
Proof. apply (scan_segments_bounded (k := length s)). lia. Qed.

End Scan.

Lemma flat_text_length b t :
  length (flat_text b t) = length (flat_text b []) + length t.
Proof.
  rewrite <- (app_nil_l t) at 1. rewrite flat_text_app, length_app. reflexivity.
Qed.

Lemma flat_text_pos b t : 0 < length (flat_text b t).
Proof.
  unfold flat_text, block_text. rewrite length_app. simpl. lia.
Qed.

Lemma rule_matches_ok ru s n c :
  match_at (rule_regex ru) s = Some (n, c) ->
  0 < n <= length s /\ exists new, rule_fn ru c = Some new.
Proof.
  intros H. destruct (rule_sound _ _ H) as (b & Hb & Es & En & Ec).
  subst n c. repeat split.
  - apply flat_text_pos.
  - rewrite Es at 1. rewrite flat_text_app, length_app. lia.
  - exists (nested_text b). now apply rule_fn_shape.
Qed.

(* ================================================================== *)
(** ** Reading a text in two ways *)

(** A run of a class that ends at a character outside the class ends at
    the same place however the text is cut. *)
Lemma span_unique k a b c d x y :
  run k a -> run k b -> in_class k c = false -> in_class k d = false ->
  a ++ c :: x = b ++ d :: y -> a = b /\ c = d /\ x = y.
Proof.
  intros Ha. revert b. induction Ha as [|a0 a Ha0 Ha IH]; intros b Hb Hc Hd E.
  - destruct b as [|b0 b]; simpl in E.
    + inversion E; auto.
    + inversion E; subst. apply Forall_inv in Hb. congruence.
  - destruct b as [|b0 b]; simpl in E.
    + inversion E; subst. congruence.
    + inversion E as [[E0 E1]]. apply Forall_inv_tail in Hb.
      destruct (IH b Hb Hc Hd E1) as (-> & -> & ->). auto.
Qed.

Lemma run_app k a b : run k a -> run k b -> run k (a ++ b).
Proof. unfold run. intros. apply Forall_app; auto. Qed.

Lemma run_spaces n : run Space (spaces n).
Proof. induction n; simpl; constructor; auto. Qed.

Lemma run_txt_spaces2 : run Space (txt "  ").
Proof. repeat constructor. Qed.

Lemma shaped_lexical ru b : shaped ru b -> lexical b.
Proof.
  unfold shaped, lexical, run1. intros H.
  destruct ru; break;
    repeat match goal with H : _ = spaces _ |- _ => rewrite H end;
    repeat split; auto using run_spaces.
Qed.

Lemma cons_tail_eq (a : ascii) x y : a :: x = a :: y -> x = y.
Proof. now inversion 1. Qed.

Ltac strip H :=
  repeat first [ apply cons_tail_eq in H | discriminate H ].

Lemma run_two k a b : in_class k a = true -> in_class k b = true -> run k [a; b].
Proof. repeat constructor; auto. Qed.

Ltac runs := auto using run_app, run_spaces, run_two.

Ltac cut_run k H :=
  let E := fresh "E" in
  apply (@span_unique k) in H;
  [ destruct H as (? & E & H); try discriminate E; clear E
  | solve [runs] | solve [runs] | reflexivity | reflexivity ].

Lemma regroup2 (i r : text) a b : i ++ a :: b :: r = (i ++ [a; b]) ++ r.
Proof. now rewrite <- app_assoc. Qed.

Ltac unfold_nested :=
  unfold nested_text, Megaprompt.nested, lines; fields.

Lemma span_unique_l k a c d x y :
  run k a -> in_class k c = false -> in_class k d = false ->
  a ++ c :: x = d :: y -> a = [] /\ c = d /\ x = y.
Proof.
  intros Ha Hc Hd E. apply (@span_unique k a [] c d x y); auto. constructor.
Qed.

Lemma span_unique_r k b c d x y :
  run k b -> in_class k c = false -> in_class k d = false ->
  c :: x = b ++ d :: y -> [] = b /\ c = d /\ x = y.
Proof.
  intros Hb Hc Hd E. apply (@span_unique k [] b c d x y); auto. constructor.
Qed.

Ltac cut_run_l k H :=
  let E := fresh "E" in
  apply (@span_unique_l k) in H;
  [ destruct H as (? & E & H); try discriminate E; clear E
  | solve [runs] | reflexivity | reflexivity ].

Ltac cut_run_r k H :=
  let E := fresh "E" in
  apply (@span_unique_r k) in H;
  [ destruct H as (? & E & H); try discriminate E; clear E
  | solve [runs] | reflexivity | reflexivity ].

Ltac cut_any H :=
  first [ cut_run Space H | cut_run Digit H
        | cut_run (NotChar "'") H | cut_run (NotChar "}") H
        | cut_run (NotChar "]") H
        | cut_run_l Space H | cut_run_l Digit H
        | cut_run_l (NotChar "'") H | cut_run_l (NotChar "}") H
        | cut_run_l (NotChar "]") H
        | cut_run_r Space H | cut_run_r Digit H
        | cut_run_r (NotChar "'") H | cut_run_r (NotChar "}") H
        | cut_run_r (NotChar "]") H ].

(** Follow two readings of one text piece by piece as far as they go. *)
Ltac align H := repeat (strip H; cut_any H); strip H.

Ltac rewrite_fields :=
  repeat match goal with H : cast _ = _ |- _ => rewrite H end;
  repeat match goal with H : data_body _ = _ |- _ => rewrite H end;
  repeat match goal with H : insights _ = _ |- _ => rewrite H end.

(** What replaces a match is not matched where it stands: its second
    line reads [success], not [extractorId]. *)
Lemma nested_not_matched ru ru' b after :
  shaped ru b -> match_at (rule_regex ru') (nested_text b ++ after) = None.
Proof.
  intros Hb. destruct (match_at _ _) as [[n c]|] eqn:E; [exfalso|reflexivity].
  apply rule_sound in E. destruct E as (b' & Hb' & E & _).
  apply shaped_lexical in Hb, Hb'. unfold lexical in *. break.
  all: revert E; unfold_nested; unfold_flat; norm; intros E.
  all: cut_run Space E; strip E; rewrite regroup2 in E; cut_run Space E.
Qed.


(* ================================================================== *)
(** ** Consequences used by the properties *)

Lemma all_in_run k w : all_in k w = true -> run k w.
Proof.
  unfold all_in, run. rewrite forallb_forall, Forall_forall. auto.
Qed.



Lemma eqb_text_refl s : eqb_text s s = true.
Proof. induction s; simpl; auto. now rewrite Ascii.eqb_refl. Qed.


(** Where no match starts inside [kept], the scan copies [kept]. *)
Lemma scan_kept r f kept later :
  unmatched r kept later = true ->
  sub_scan r f 0 (kept ++ later)
  = (tl <- sub_scan r f 0 later ;; Some (kept ++ tl)).
Proof.
  induction kept as [|a kept IH]; intros H; cbn [unmatched] in H.
  - simpl. destruct (sub_scan r f 0 later); reflexivity.
  - destruct (match_at r ((a :: kept) ++ later)) eqn:E; [discriminate|].
    cbn [app] in *. rewrite scan_copy by exact E. rewrite (IH H).
    destruct (sub_scan r f 0 later); reflexivity.
Qed.

Lemma rule_scan_total ru s : exists out, apply_rule ru s = Some out.
Proof.
  destruct (@scan_segments (rule_regex ru) (rule_fn ru)
              (@rule_matches_ok ru) s)
    as (gs & _ & _ & H).
  rewrite apply_rule_scan. eauto.
Qed.

(** A flat literal at the head of the text is replaced by its nested
    form, and the scan goes on right after its closing brace (after the
    cast, in fix-megaprompt). *)
Lemma rule_rewrites_flat ru b after :
  shaped ru b ->
  apply_rule ru (flat_text b (trailer ru ++ after))
  = (tl <- apply_rule ru after ;; Some (nested_text b ++ tl)).
Proof.
  intros Hb. rewrite !apply_rule_scan.
  rewrite scan_match with (1 := rule_complete after Hb).
  - rewrite (rule_fn_shape Hb).
    rewrite flat_text_app, skipn_app, skipn_all, Nat.sub_diag. reflexivity.
  - split; [apply flat_text_pos|]. rewrite flat_text_app, length_app. lia.
Qed.

Lemma search_tail r a s :
  match_at r (a :: s) = None -> search r s = None -> search r (a :: s) = None.
Proof. intros H1 H2. cbn [search]. now rewrite H1, H2. Qed.


Lemma rule_no_match ru content :
  re_search (rule_pattern ru) content = Some None ->
  apply_rule ru content = Some content.
Proof.
  unfold re_search. rewrite compiled. intros H. injection H as H.
  rewrite apply_rule_scan. now apply scan_no_match.
Qed.

(** A block with [data: {}] is not matched by the first pattern of
    fix-megaprompt, whatever its other fields and whatever follows. *)
Lemma empty_data_not_first_rule b t :
  lexical b -> data_body b = [] ->
  match_at (rule_regex MegaFlat) (flat_text b t) = None.
Proof.
  intros L Hd.
  destruct (match_at (rule_regex MegaFlat) (flat_text b t)) as [[n c]|] eqn:E;
    [exfalso|reflexivity].
  apply rule_sound in E. destruct E as (b' & Hb' & E & _).
  pose proof (shaped_lexical Hb') as L'.
  unfold shaped, lexical, run1 in *. break.
  all: destruct (insights b) as [[wm l]|];
    revert E; unfold_flat; rewrite_fields; norm; intros E.
  all: align E.
  all: congruence.
Qed.

Lemma lines_last ls x y : lines (ls ++ [x ++ y]) = lines (ls ++ [x]) ++ y.
Proof.
  induction ls as [|l ls IH]; simpl; auto.
  destruct ls as [|l' ls].
  - simpl. now rewrite <- app_assoc.
  - change ((l' :: ls) ++ [x ++ y]) with (l' :: ls ++ [x ++ y]) in *.
    change ((l' :: ls) ++ [x]) with (l' :: ls ++ [x]) in *.
    rewrite IH. now rewrite <- app_assoc.
Qed.

Lemma nested_ends b : exists head, nested_text b = head ++ txt "} as any".
Proof.
  unfold nested_text, Megaprompt.nested.
  match goal with
  | |- exists head, lines ?l = _ =>
      change l with (removelast l ++ [indent b ++ txt "} as any"])
  end.
  rewrite lines_last. eauto.
Qed.

Lemma ends_app (x y z : text) :
  (exists b, y = b ++ z) -> exists b, x ++ y = b ++ z.
Proof. intros [b ->]. exists (x ++ b). now rewrite app_assoc. Qed.

Lemma ends_cons (a : ascii) (y z : text) :
  (exists b, y = b ++ z) -> exists b, a :: y = b ++ z.
Proof. intros [b ->]. now exists (a :: b). Qed.

Lemma flat_ends b : exists body, flat_text b [] = body ++ txt "}".
Proof.
  unfold flat_text, block_text. cbn [txt list_ascii_of_string].
  repeat first [ solve [exists []; reflexivity]
               | apply ends_app | apply ends_cons ].
Qed.


(* ================================================================== *)
(** ** Where one reading of a text can cross another *)



















(* ------------------------------------------------------------------ *)
(** *** Cutting both sides of an equation at the end of a run *)





(* ------------------------------------------------------------------ *)
(** *** A flat literal against a nested one *)
















(* ------------------------------------------------------------------ *)
(** *** A second scan of the output *)














(* ================================================================== *)
(** ** The properties of the specification *)

(** C1, as stated, fails: the literal of the specification, written on
    one line as the specification writes it, holds no match of any of the
    three patterns (each wants a line break after the opening brace, a
    comma after the duration and, in fix-megaprompt, the
    [as ExtractionResult] cast); both scripts leave it as it is, so the
    output has no nested structure. *)
Lemma C1_one_line_literal_untouched :
  Synthesis.rewrite c1_literal = Some c1_literal
  /\ Megaprompt.rewrite c1_literal = Some c1_literal
  /\ has_nested c1_literal = false.
Proof. vm_compute. repeat split; reflexivity. Qed.

(** C1, amended: the same literal laid out over lines as the patterns
    expect it is rewritten by both scripts into the nested literal with
    [metadata.extractorId] 'demographics', [confidence.overall] 0.85,
    [confidence.sourceCount] 3, [metadata.timing.total] 120 and the
    payload [{foo: 1}] unchanged in the new [data] field. *)
Theorem C1_laid_out_literal_becomes_nested :
  Synthesis.rewrite c1_flat = Some (c1_nested ++ txt " as ExtractionResult,")
  /\ Megaprompt.rewrite c1_flat = Some (c1_nested ++ txt ",")
  /\ has_nested c1_nested = true.
Proof. vm_compute. repeat split; reflexivity. Qed.

(** C2: a substitution changes the text only inside the spans it
    matches. The text is cut into stretches that are copied as they are
    and spans that are matches of the rule's pattern, each replaced by
    what the rule makes of its groups; the output is the same sequence
    with the replacements in place of the spans. *)
Theorem C2_only_matched_spans_change (ru : rule) (content : text) :
  exists gs,
    scanned (rule_regex ru) (rule_fn ru) content gs
    /\ sources gs = content
    /\ apply_rule ru content = Some (images gs).
Proof.
  rewrite apply_rule_scan. apply scan_segments. apply rule_matches_ok.
Qed.

(** C3: when a rule's pattern occurs nowhere in the text, applying the
    rule gives the text back, and gives it back as a result, not as an
    error. *)
Theorem C3_no_match_no_change (ru : rule) (content : text) :
  re_search (rule_pattern ru) content = Some None ->
  apply_rule ru content = Some content.
Proof. apply rule_no_match. Qed.

Lemma C3_no_match_no_change_witness :
  re_search (rule_pattern MegaFlat) c1_literal = Some None
  /\ apply_rule MegaFlat c1_literal = Some c1_literal.
Proof.
  split; [vm_compute; reflexivity|].
  apply (C3_no_match_no_change MegaFlat c1_literal). vm_compute; reflexivity.
Defined.








(** C7: when the file of a script does not exist, the run ends with
    [FileNotFoundError] uncaught, the exit status is not 0, and the
    files and the output are what they were: the failure comes before
    any write. *)
Theorem C7_missing_file_is_fatal (sc : script) (w : world) :
  files w (script_path sc) = None ->
  run_script sc w = (w, Some FileNotFoundError)
  /\ exit_status (snd (run_script sc w)) <> 0.
Proof.
  intros H. unfold run_script, main. rewrite H. simpl. split; auto.
Qed.

Lemma C7_missing_file_is_fatal_witness :
  files (World (fun _ => None) []) (script_path FixSynthesis) = None
  /\ run_script FixSynthesis (World (fun _ => None) [])
     = (World (fun _ => None) [], Some FileNotFoundError)
  /\ exit_status (snd (run_script FixSynthesis (World (fun _ => None) [])))
     <> 0.
Proof.
  split; [reflexivity|].
  apply (C7_missing_file_is_fatal FixSynthesis (World (fun _ => None) [])).
  reflexivity.
Defined.



(** The confidences the property names, [1] and [1.0], in a whole file:
    both scripts return the text as it is. *)
Lemma confidence_one_untouched (sc : script) :
  script_rewrite sc (c8_block (txt "1")) = Some (c8_block (txt "1"))
  /\ script_rewrite sc (c8_block (txt "1.0")) = Some (c8_block (txt "1.0")).
Proof. destruct sc; vm_compute; split; reflexivity. Qed.

(** C9, as stated, fails: here the data value of a flat literal holds a
    nested object, and the fields that follow that object read like the
    end of a flat literal. The pattern of fix-synthesis matches the
    block with the data value cut at the first closing brace, and the
    block is rewritten. *)
Lemma C9_block_with_nested_data_rewritten :
  contains (txt "}") (removelast c9_value) = true
  /\ (exists n c,
        match_at (rule_regex SynthFlat) c9_input = Some (n, c)
        /\ group_of c 5 = Some (txt "{a: {b: 1}"))
  /\ Synthesis.rewrite c9_input = Some c9_output
  /\ eqb_text c9_output c9_input = false.
Proof.
  split; [reflexivity|]. split.
  - do 2 eexists. split; [vm_compute; reflexivity|reflexivity].
  - split; vm_compute; reflexivity.
Qed.

(** C9, amended: the data value a pattern reads never holds a closing
    brace of its own: it is an opening brace, a payload without [}], and
    the first [}] after it, and the comma and the line of [timestamp]
    (the insights line first, for the second pattern of fix-megaprompt)
    must follow at once. So a data value with a nested object is never
    read whole, and its block is matched only when the text after the
    first [}] goes on like the end of a flat literal. The first pattern
    of fix-megaprompt wants the payload not empty; the second wants
    [data: {}] and the insights line. *)
Theorem C9_data_value_ends_at_first_brace
        (ru : rule) (s : text) (n : nat) (c : captures) :
  match_at (rule_regex ru) s = Some (n, c) ->
  exists b,
    shaped ru b
    /\ s = flat_text b (trailer ru ++ skipn n s)
    /\ run (NotChar "}") (data_body b)
    /\ match ru with
       | MegaFlat =>
           data_body b <> [] /\ insights b = None
           /\ group_of c 6 = Some (data b)
       | MegaInsights =>
           data_body b = [] /\ exists wm l, insights b = Some (wm, l)
       | SynthFlat => insights b = None /\ group_of c 5 = Some (data b)
       end.
Proof.
  intros Hm. destruct (rule_sound _ _ Hm) as (b & Hb & Es & _ & ->).
  exists b. split; [exact Hb|]. split; [exact Es|].
  unfold shaped in Hb. destruct ru; break.
  - repeat split; auto.
  - repeat split; auto. eauto.
  - repeat split; auto.
  - repeat split; auto.
Qed.

Lemma C9_data_value_ends_at_first_brace_witness :
  exists b,
    shaped SynthFlat b
    /\ c9_input = flat_text b (trailer SynthFlat ++ skipn 199 c9_input)
    /\ run (NotChar "}") (data_body b)
    /\ insights b = None
    /\ group_of [(6, txt "5"); (5, txt "{a: {b: 1}"); (4, txt "3");
                 (2, txt "0.5"); (1, txt "x")] 5
       = Some (data b).
Proof.
  apply (@C9_data_value_ends_at_first_brace SynthFlat c9_input 199
           [(6, txt "5"); (5, txt "{a: {b: 1}"); (4, txt "3");
            (2, txt "0.5"); (1, txt "x")]).
  vm_compute. reflexivity.
Defined.

(** C10: the pattern of fix-synthesis ends at the closing brace of the
    block: the match is a text that ends with [}], and the scan goes on
    with the very next character. So the text that follows the brace, as
    far as no further match starts in it, stands in the output right
    after the [} as any] that ends the replacement. *)
Theorem C10_text_after_brace_is_kept
        (s : text) (n : nat) (c : captures) (kept later : text) :
  match_at (rule_regex SynthFlat) s = Some (n, c) ->
  skipn n s = kept ++ later ->
  unmatched (rule_regex SynthFlat) kept later = true ->
  exists body head tl,
    firstn n s = body ++ txt "}"
    /\ rule_fn SynthFlat c = Some (head ++ txt "} as any")
    /\ apply_rule SynthFlat later = Some tl
    /\ apply_rule SynthFlat s = Some (head ++ txt "} as any" ++ kept ++ tl).
Proof.
  intros Hm Hk Hu.
  destruct (rule_sound _ _ Hm) as (b & Hb & Es & En & ->).
  destruct (nested_ends b) as [head Hh].
  destruct (flat_ends b) as [body Hbody].
  destruct (rule_scan_total SynthFlat later) as [tl Ht].
  exists body, head, tl.
  split; [|split; [|split]]; auto.
  - rewrite Es at 1. cbn [trailer app] in *.
    rewrite <- (app_nil_l (skipn n s)) at 1.
    rewrite flat_text_app, firstn_app, En.
    rewrite firstn_all, Nat.sub_diag. simpl firstn. rewrite app_nil_r.
    exact Hbody.
  - rewrite (rule_fn_shape Hb). now rewrite Hh.
  - rewrite Es. rewrite (rule_rewrites_flat _ Hb). rewrite Hk.
    rewrite apply_rule_scan.
    rewrite (@scan_kept _ _ _ _ Hu). rewrite <- apply_rule_scan, Ht.
    rewrite Hh, <- app_assoc. reflexivity.
Qed.

Lemma C10_text_after_brace_is_kept_witness :
  exists body head tl,
    firstn 211 c1_flat = body ++ txt "}"
    /\ rule_fn SynthFlat
         [(6, txt "120"); (5, txt "{foo: 1}"); (4, txt "3");
          (2, txt "0.85"); (1, txt "demographics")]
       = Some (head ++ txt "} as any")
    /\ apply_rule SynthFlat [] = Some tl
    /\ apply_rule SynthFlat c1_flat
       = Some (head ++ txt "} as any" ++ txt " as ExtractionResult," ++ tl).
Proof.
  apply (@C10_text_after_brace_is_kept c1_flat 211
           [(6, txt "120"); (5, txt "{foo: 1}"); (4, txt "3");
            (2, txt "0.85"); (1, txt "demographics")]
           (txt " as ExtractionResult,") []);
    vm_compute; reflexivity.
Defined.

(* ================================================================== *)
(** * Further properties of the two scripts *)

(** ** A run on a file that exists *)


Lemma stable_fixed sc out :
  stable sc out = true -> script_rewrite sc out = Some out.
Proof.
  intros Hs. destruct sc; unfold stable in Hs; cbn [script_rules forallb] in Hs.
  - destruct (re_search (rule_pattern MegaFlat) out) as [[|]|] eqn:E1;
      try discriminate.
    destruct (re_search (rule_pattern MegaInsights) out) as [[|]|] eqn:E2;
      try discriminate.
    cbn [script_rewrite]. unfold Megaprompt.rewrite.
    change (re_sub Megaprompt.pattern (Callable Megaprompt.replacement) out
                   [MULTILINE]) with (apply_rule MegaFlat out).
    rewrite (rule_no_match MegaFlat out E1).
    exact (rule_no_match MegaInsights out E2).
  - destruct (re_search (rule_pattern SynthFlat) out) as [[|]|] eqn:E1;
      try discriminate.
    exact (rule_no_match SynthFlat out E1).
Qed.


Lemma files_fixed sc out w q :
  files (fixed sc out w) q
  = if String.eqb q (script_path sc) then Some out else files w q.
Proof. reflexivity. Qed.





(** ** The two scripts together *)

Lemma paths_differ :
  String.eqb (script_path FixSynthesis) (script_path FixMegaprompt) = false.
Proof. reflexivity. Qed.

Lemma run_frame sc w q :
  q <> script_path sc -> files (fst (run_script sc w)) q = files w q.
Proof.
  intros Hq. unfold run_script, main.
  destruct (files w (script_path sc)) as [content|]; [|reflexivity].
  destruct (script_rewrite sc content) as [out|]; [|reflexivity].
  cbn [fst]. change (print _ (write_file _ out w)) with (fixed sc out w).
  rewrite files_fixed.
  destruct (String.eqb q (script_path sc)) eqn:E; [|reflexivity].
  apply String.eqb_eq in E. contradiction.
Qed.

(** What a run does depends on the files through the script's own file
    only. *)
Lemma run_reads_own_file sc w w' :
  files w (script_path sc) = files w' (script_path sc) ->
  snd (run_script sc w) = snd (run_script sc w')
  /\ files (fst (run_script sc w)) (script_path sc)
     = files (fst (run_script sc w')) (script_path sc).
Proof.
  intros H. unfold run_script, main. rewrite <- H.
  destruct (files w (script_path sc)) as [content|] eqn:E;
    [|cbn [fst snd]; split; congruence].
  destruct (script_rewrite sc content) as [out|];
    [|cbn [fst snd]; split; congruence].
  cbn [fst snd]. split; [reflexivity|].
  change (print _ (write_file _ out w)) with (fixed sc out w).
  change (print _ (write_file _ out w')) with (fixed sc out w').
  now rewrite !files_fixed, String.eqb_refl.
Qed.

Lemma other_script sc sc' : sc <> sc' -> script_path sc <> script_path sc'.
Proof.
  intros H E. destruct sc, sc'; try congruence;
    apply String.eqb_eq in E; vm_compute in E; discriminate.
Qed.

(** X3: the two scripts work on different files, so they can be run in
    either order: the files at the end are the same, and each script
    ends the same way, whichever runs first. *)
Theorem X3_scripts_commute_on_files (w : world) (q : string) :
  files (fst (run_script FixSynthesis (fst (run_script FixMegaprompt w)))) q
  = files (fst (run_script FixMegaprompt (fst (run_script FixSynthesis w)))) q
  /\ snd (run_script FixMegaprompt w)
     = snd (run_script FixMegaprompt (fst (run_script FixSynthesis w)))
  /\ snd (run_script FixSynthesis w)
     = snd (run_script FixSynthesis (fst (run_script FixMegaprompt w))).
Proof.
  assert (Hms : script_path FixMegaprompt <> script_path FixSynthesis)
    by (apply other_script; discriminate).
  assert (Hsm : script_path FixSynthesis <> script_path FixMegaprompt)
    by (apply other_script; discriminate).
  pose proof (@run_reads_own_file FixMegaprompt w
                (fst (run_script FixSynthesis w))) as [Em Fm].
  { symmetry. now apply run_frame. }
  pose proof (@run_reads_own_file FixSynthesis w
                (fst (run_script FixMegaprompt w))) as [Es Fs].
  { symmetry. now apply run_frame. }
  repeat split; auto.
  destruct (string_dec q (script_path FixSynthesis)) as [->|Hq1].
  - rewrite <- Fs. symmetry. now apply run_frame.
  - rewrite (run_frame FixSynthesis _ Hq1).
    destruct (string_dec q (script_path FixMegaprompt)) as [->|Hq2].
    + exact Fm.
    + rewrite !run_frame by assumption. reflexivity.
Qed.

(** ** What is rewritten, and into what *)

Lemma eqb_text_eq s : forall t, eqb_text s t = true -> s = t.
Proof.
  induction s as [|a s IH]; intros [|b t] H; simpl in H; try discriminate.
  - reflexivity.
  - apply andb_prop in H. destruct H as [Ha Hs].
    apply Ascii.eqb_eq in Ha. subst b. f_equal. now apply IH.
Qed.

Lemma run1b_ok k w : run1b k w = true -> run1 k w.
Proof.
  unfold run1b, run1. intros H. apply andb_prop in H. destruct H as [Hn Hr].
  split; [|now apply all_in_run]. destruct w; [discriminate|congruence].
Qed.

Ltac bools :=
  repeat match goal with
  | H : _ && _ = true |- _ => apply andb_prop in H; destruct H as [? H]
  | H : run1b _ _ = true |- _ => apply run1b_ok in H
  | H : all_in _ _ = true |- _ => apply all_in_run in H
  | H : eqb_text _ _ = true |- _ => apply eqb_text_eq in H
  end.

Lemma well_shaped_ok ru b : well_shaped ru b = true -> shaped ru b.
Proof.
  unfold well_shaped, shaped, no_insights. intros H.
  destruct ru; bools.
  all: destruct (insights b) as [[wm l]|]; try discriminate; bools.
  all: repeat match goal with
       | H : _ || _ = true |- _ =>
           apply orb_prop in H; destruct H as [H|H]; apply eqb_text_eq in H
       | H : nonempty ?w = true |- _ =>
           destruct w; [discriminate H|clear H]
       end.
  all: unfold run1 in *;
    repeat match goal with H : _ /\ _ |- _ => destruct H end.
  all: repeat split; eauto 10; try discriminate.
Qed.

(** X4: a flat literal of a rule's shape, whatever its field values, is
    replaced by the nested literal with the same fields when the scan
    reaches it (no match begins in the text before it); the text before
    it is kept and the scan goes on after it. *)
Theorem X4_flat_literal_rewritten
        (ru : rule) (b : flat) (kept after : text) :
  well_shaped ru b = true ->
  unmatched (rule_regex ru) kept (flat_text b (trailer ru ++ after)) = true ->
  exists tl,
    apply_rule ru after = Some tl
    /\ apply_rule ru (kept ++ flat_text b (trailer ru ++ after))
       = Some (kept ++ nested_text b ++ tl).
Proof.
  intros Hb Hk. apply well_shaped_ok in Hb.
  destruct (rule_scan_total ru after) as (tl & Ht). exists tl.
  split; [exact Ht|].
  pose proof (rule_rewrites_flat after Hb) as Hr. rewrite Ht in Hr.
  rewrite apply_rule_scan in *. rewrite (scan_kept _ _ _ _ Hk), Hr.
  reflexivity.
Qed.

Lemma X4_flat_literal_rewritten_witness :
  exists tl,
    apply_rule SynthFlat x_after = Some tl
    /\ apply_rule SynthFlat
         (x_before ++ flat_text (x_flat []) (trailer SynthFlat ++ x_after))
       = Some (x_before ++ nested_text (x_flat []) ++ tl).
Proof.
  apply (@X4_flat_literal_rewritten SynthFlat (x_flat []) x_before x_after);
    vm_compute; reflexivity.
Defined.

Lemma scanned_literals ru s gs :
  scanned (rule_regex ru) (rule_fn ru) s gs -> Forall (literal_segment ru) gs.
Proof.
  induction 1 as [|a s gs Hm Hs IH|s n c new gs Hm Hn Hf Hs IH].
  - constructor.
  - constructor; [exact I | exact IH].
  - constructor; [|exact IH].
    destruct (rule_sound _ _ Hm) as (b & Hb & Es & En & Ec).
    exists b. split; [exact Hb|]. split.
    + rewrite Es at 1. rewrite flat_text_app, En, firstn_app, Nat.sub_diag.
      rewrite firstn_all. cbn [firstn]. now rewrite app_nil_r.
    + rewrite Ec, (rule_fn_shape Hb) in Hf. now inversion Hf.
Qed.

(** X5: whatever the text, the spans a rule replaces are flat literals
    of the rule's shape, and each is replaced by the nested literal with
    the same fields; the rest of the text is copied. *)
Theorem X5_replaced_spans_are_literals (ru : rule) (content : text) :
  exists gs,
    scanned (rule_regex ru) (rule_fn ru) content gs
    /\ sources gs = content
    /\ apply_rule ru content = Some (images gs)
    /\ Forall (literal_segment ru) gs.
Proof.
  destruct (@scan_segments (rule_regex ru) (rule_fn ru)
              (@rule_matches_ok ru) content)
    as (gs & Hs & Hsrc & Hsub).
  exists gs. rewrite apply_rule_scan. repeat split; auto.
  exact (@scanned_literals ru content gs Hs).
Qed.

Lemma unchanged_no_match ru : forall k s,
  length s <= k ->
  sub_scan (rule_regex ru) (rule_fn ru) 0 s = Some s ->
  search (rule_regex ru) s = None.
Proof.
  induction k as [|k IH]; intros s Hk Hsub.
  - destruct s; [|simpl in Hk; lia]. cbn [search].
    destruct (match_at (rule_regex ru) []) as [[n c]|] eqn:E; [|reflexivity].
    apply rule_matches_ok in E. simpl in E. lia.
  - destruct (match_at (rule_regex ru) s) as [[n c]|] eqn:E.
    + exfalso. destruct (rule_matches_ok _ _ E) as [Hn _].
      destruct (rule_sound _ _ E) as (b & Hb & _ & _ & Ec).
      rewrite scan_match with (1 := E) (2 := Hn) in Hsub.
      rewrite Ec, (rule_fn_shape Hb) in Hsub. cbv beta iota in Hsub.
      destruct (sub_scan _ _ 0 (skipn n s)) as [tl|]; [|discriminate].
      injection Hsub as Hs. rewrite <- Hs in E.
      rewrite (@nested_not_matched ru ru b tl Hb) in E. discriminate.
    + destruct s as [|a s]; [cbn [search]; now rewrite E|].
      rewrite scan_copy in Hsub by exact E.
      destruct (sub_scan _ _ 0 s) as [tl|] eqn:Hs; [|discriminate].
      injection Hsub as ->. apply search_tail; [exact E|].
      apply IH; [simpl in Hk; lia | exact Hs].
Qed.

(** X6: a rule leaves a text as it is exactly when its pattern matches
    nowhere in it: where the pattern matches, the text is changed. For
    fix-synthesis this is the whole rewrite. *)
Theorem X6_text_unchanged_iff_no_match (ru : rule) (content : text) :
  (apply_rule ru content = Some content
   <-> re_search (rule_pattern ru) content = Some None)
  /\ (Synthesis.rewrite content = Some content
      <-> stable FixSynthesis content = true).
Proof.
  assert (H : forall ru',
            apply_rule ru' content = Some content
            <-> re_search (rule_pattern ru') content = Some None).
  { intros ru'. split; [|apply rule_no_match].
    intros Hr. unfold re_search. rewrite compiled. f_equal.
    rewrite apply_rule_scan in Hr.
    now apply (@unchanged_no_match ru' (length content)). }
  split; [apply H|].
  change (Synthesis.rewrite content) with (apply_rule SynthFlat content).
  rewrite (H SynthFlat). unfold stable. cbn [script_rules forallb].
  destruct (re_search (rule_pattern SynthFlat) content) as [[p|]|];
    split; intros E; try discriminate; reflexivity.
Qed.

Lemma same_fields_nested b b' :
  same_fields b b' = true -> nested_text b = nested_text b'.
Proof.
  unfold same_fields. intros H. bools.
  unfold nested_text, data, confidence. congruence.
Qed.

(** X7: the rewrite keeps six fields of a literal and discards the
    rest: the white space inside it, the cast after the confidence
    (fix-synthesis) and the insights list (second rule of
    fix-megaprompt). Two literals of a rule's shape with the same
    indentation, extractorId, confidence, dataPoints, data and duration
    are rewritten to the same text. *)
Theorem X7_output_depends_on_six_fields
        (ru : rule) (b b' : flat) (after : text) :
  well_shaped ru b = true -> well_shaped ru b' = true ->
  same_fields b b' = true ->
  apply_rule ru (flat_text b (trailer ru ++ after))
  = apply_rule ru (flat_text b' (trailer ru ++ after)).
Proof.
  intros Hb Hb' Hs. apply well_shaped_ok in Hb, Hb'.
  rewrite (rule_rewrites_flat after Hb), (rule_rewrites_flat after Hb').
  now rewrite (same_fields_nested b b' Hs).
Qed.

Lemma X7_output_depends_on_six_fields_witness :
  apply_rule SynthFlat
    (flat_text (x_flat (txt " as any")) (trailer SynthFlat ++ x_after))
  = apply_rule SynthFlat
      (flat_text (x_flat []) (trailer SynthFlat ++ x_after)).
Proof.
  apply (@X7_output_depends_on_six_fields SynthFlat (x_flat (txt " as any"))
           (x_flat []) x_after); vm_compute; reflexivity.
Defined.

(** ** One literal under both scripts *)






(** ** Texts the scripts leave alone *)

Lemma contains_here p s : contains p (p ++ s) = true.
Proof. destruct p; simpl; [destruct s; reflexivity|].
  rewrite Ascii.eqb_refl. change (eat p (p ++ s)) with (eat p (p ++ s)).
  now rewrite eat_app.
Qed.

Lemma contains_cons p a s : contains p s = true -> contains p (a :: s) = true.
Proof. intros H. cbn [contains]. destruct (eat p (a :: s)); auto. Qed.

Lemma contains_app p x s : contains p s = true -> contains p (x ++ s) = true.
Proof. induction x; simpl app; auto using contains_cons. Qed.

Ltac holds :=
  repeat first [ apply contains_here | apply contains_app
               | apply contains_cons ].

Lemma flat_holds_timestamp b t : contains timestamp_line (flat_text b t) = true.
Proof.
  unfold flat_text, block_text, timestamp_line.
  holds.
Qed.

Lemma flat_holds_cast b t :
  contains cast_end (flat_text b (txt " as ExtractionResult" ++ t)) = true.
Proof.
  unfold flat_text, block_text.
  change (txt "}" ++ txt " as ExtractionResult" ++ t) with (cast_end ++ t).
  holds.
Qed.

Lemma found_holds r p s :
  (forall t n c, match_at r t = Some (n, c) -> contains p t = true) ->
  search r s <> None -> contains p s = true.
Proof.
  intros Hm. induction s as [|a s IH]; cbn [search]; intros H.
  - destruct (match_at r []) as [[n c]|] eqn:E; [|congruence].
    exact (Hm _ _ _ E).
  - destruct (match_at r (a :: s)) as [[n c]|] eqn:E; [exact (Hm _ _ _ E)|].
    apply contains_cons, IH.
    destruct (search r s); [discriminate | simpl in H; congruence].
Qed.

Lemma rule_needs_timestamp ru content :
  contains timestamp_line content = false ->
  re_search (rule_pattern ru) content = Some None.
Proof.
  intros H. unfold re_search. rewrite compiled. f_equal.
  destruct (search (rule_regex ru) content) eqn:E; [exfalso|reflexivity].
  rewrite (@found_holds (rule_regex ru) timestamp_line content) in H;
    [discriminate | | congruence].
  intros t k c Hm. destruct (rule_sound _ _ Hm) as (b & _ & -> & _).
  apply flat_holds_timestamp.
Qed.

Lemma rule_needs_cast ru content :
  ru <> SynthFlat -> contains cast_end content = false ->
  re_search (rule_pattern ru) content = Some None.
Proof.
  intros Hru H. unfold re_search. rewrite compiled. f_equal.
  destruct (search (rule_regex ru) content) eqn:E; [exfalso|reflexivity].
  rewrite (@found_holds (rule_regex ru) cast_end content) in H;
    [discriminate | | congruence].
  intros t k c Hm. destruct (rule_sound _ _ Hm) as (b & _ & -> & _).
  destruct ru; try congruence; apply flat_holds_cast.
Qed.

(** X9: a text that does not hold [timestamp: Date.now(),] is left as
    it is by either script, and so is, by fix-megaprompt, a text that
    does not hold [} as ExtractionResult]: no pattern matches in it. *)
Theorem X9_text_without_marker_untouched (sc : script) (content : text) :
  contains timestamp_line content = false
  \/ (sc = FixMegaprompt /\ contains cast_end content = false) ->
  stable sc content = true /\ script_rewrite sc content = Some content.
Proof.
  intros H.
  assert (Hs : stable sc content = true).
  { unfold stable. apply forallb_forall. intros ru Hin.
    destruct H as [H | [-> H]].
    - now rewrite (rule_needs_timestamp ru content H).
    - rewrite (@rule_needs_cast ru content); auto.
      cbn [script_rules In] in Hin. intuition congruence. }
  split; [exact Hs | exact (stable_fixed sc content Hs)].
Qed.

Lemma X9_text_without_marker_untouched_witness :
  stable FixMegaprompt c1_nested = true
  /\ script_rewrite FixMegaprompt c1_nested = Some c1_nested.
Proof.
  apply (@X9_text_without_marker_untouched FixMegaprompt c1_nested).
  right. split; [reflexivity | vm_compute; reflexivity].
Defined.

